(** * String hashing of lj_str_hash.c: length-banded CRC32 hash, sampled
      long-string hash, sample-position table and portable fallback.

    Shallow embedding.  Unsigned C integers are [Z] with the wrap-around
    written out ([u32], [u64]); the string argument [str] is the memory seen
    from the pointer: a map from byte offsets (relative to [str], negative
    offsets allowed) to bytes.  Every load is recorded, so that a routine
    returns its hash value together with the list of its memory accesses. *)

From Stdlib Require Import ZArith List Lia Bool.
From Stdlib Require Import Orders Mergesort Permutation.
Import ListNotations.
Open Scope Z_scope.

(** ** Machine integers *)

Definition u8 (x : Z) : Z := x mod 2 ^ 8.
Definition u32 (x : Z) : Z := x mod 2 ^ 32.
Definition u64 (x : Z) : Z := x mod 2 ^ 64.

(** Conversion of a 32-bit pattern to [int] (two's complement). *)
Definition to_int (x : Z) : Z :=
  let y := u32 x in if y <? 2 ^ 31 then y else y - 2 ^ 32.

(** Modelled from the spec: the macro [lj_rol] lives in lj_def.h, which is not
    among the sources; it is the 32-bit rotate-left of the Bit-Mixer,
    [(x << n) | (x >> (-n & 31))] on [uint32_t]. *)
Definition lj_rol (x n : Z) : Z :=
  Z.lor (u32 (Z.shiftl (u32 x) n)) (Z.shiftr (u32 x) (Z.land (- n) 31)).

(** ** Memory, accesses and the load monad *)

Definition memory := Z -> Z.

Record access := mk_access { acc_off : Z; acc_width : Z }.

(** [covers a k]: byte offset [k] lies in the span of access [a]. *)
Definition covers (a : access) (k : Z) : Prop :=
  acc_off a <= k < acc_off a + acc_width a.

(** [in_buffer len a]: the access starts at an offset >= 0 and ends no later
    than byte [len - 1]. *)
Definition in_buffer (len : Z) (a : access) : Prop :=
  0 <= acc_off a /\ acc_off a + acc_width a <= len.

(** A computation yields a value and the accesses it performed, or [None]
    when the loop fuel is exhausted. *)
Definition M (A : Type) : Type := option (A * list access).

Definition ret {A} (a : A) : M A := Some (a, []).

Definition bind {A B} (m : M A) (f : A -> M B) : M B :=
  match m with
  | None => None
  | Some (a, t1) =>
      match f a with
      | None => None
      | Some (b, t2) => Some (b, t1 ++ t2)
      end
  end.

Notation "x <- m ;; f" := (bind m (fun x => f))
  (at level 61, m at next level, right associativity).
Notation "' p <- m ;; f" := (bind m (fun x => let p := x in f))
  (at level 61, p pattern, m at next level, right associativity).

Definition value {A} (m : M A) : option A := option_map fst m.
Definition reads {A} (m : M A) : list access :=
  match m with Some (_, t) => t | None => [] end.

(** Little-endian combination of [n] bytes starting at offset [off]. *)
Fixpoint le_bytes (str : memory) (off : Z) (n : nat) : Z :=
  match n with
  | O => 0
  | S n' => u8 (str off) + 2 ^ 8 * le_bytes str (off + 1) n'
  end.

(** Byte load at [str + off], read as [uint8_t]. *)
Definition load_u8 (str : memory) (off : Z) : M Z :=
  Some (le_bytes str off 1, [mk_access off 1]).

(** Word load through [cast_uint32p (str + off)]; also
    [lj_getu32 (str + off)], the unaligned 32-bit load of lj_def.h. *)
Definition cast_uint32p (str : memory) (off : Z) : M Z :=
  Some (le_bytes str off 4, [mk_access off 4]).

Definition lj_getu32 := cast_uint32p.

(** Word load through [cast_uint64p (str + off)]. *)
Definition cast_uint64p (str : memory) (off : Z) : M Z :=
  Some (le_bytes str off 8, [mk_access off 8]).

(** ** The CRC32 primitive *)

(** The hardware instruction behind [lj_crc32_u32] / [lj_crc32_u64]
    ([_mm_crc32_u32], [_mm_crc32_u64] or [__crc32cw], [__crc32cd]): an
    injected capability. *)
Class CRC32 := {
  hw_crc32_u32 : Z -> Z -> Z;
  hw_crc32_u64 : Z -> Z -> Z
}.

(** The CRC32C (Castagnoli) instruction, bit-serial with the reflected
    polynomial: the instance both target architectures provide. *)
Fixpoint crc32c_shift (n : nat) (crc : Z) : Z :=
  match n with
  | O => crc
  | S n' =>
      crc32c_shift n'
        (Z.lxor (Z.shiftr crc 1) (if Z.odd crc then 0x82F63B78 else 0))
  end.

Definition crc32c_u32 (crc v : Z) : Z := crc32c_shift 32 (Z.lxor crc v).
Definition crc32c_u64 (crc v : Z) : Z := crc32c_shift 64 (Z.lxor crc v).

Definition crc32c_hw : CRC32 :=
  {| hw_crc32_u32 := crc32c_u32; hw_crc32_u64 := crc32c_u64 |}.

(** ** The log2 lookup table *)

Definition log2_tab : list Z :=
  [ -1; 0; 1; 1; 2; 2; 2; 2; 3; 3; 3; 3; 3; 3; 3; 3; 4; 4;
    4; 4; 4; 4; 4; 4; 4; 4; 4; 4; 4; 4; 4; 4; 5; 5; 5; 5; 5; 5; 5; 5; 5; 5; 5; 5; 5; 5; 5;
    5; 5; 5; 5; 5; 5; 5; 5; 5; 5; 5; 5; 5; 5; 5; 5; 5; 6; 6; 6; 6; 6; 6; 6; 6; 6; 6; 6; 6;
    6; 6; 6; 6; 6; 6; 6; 6; 6; 6; 6; 6; 6; 6; 6; 6; 6; 6; 6; 6; 6; 6; 6; 6; 6; 6; 6; 6; 6;
    6; 6; 6; 6; 6; 6; 6; 6; 6; 6; 6; 6; 6; 6; 6; 6; 6; 6; 6; 6; 6; 6; 6 ].

(** [log2_tab[n]], an [int8_t]. *)
Definition log2_tab_at (n : Z) : Z := nth (Z.to_nat n) log2_tab 0.

(** return floor(log2(n)); the [int8_t] entry (plus 8, 16 or 24 in [int]) is
    converted to the [uint32_t] result. *)
Definition log2_floor (n : Z) : Z :=
  if n <=? 127 then u32 (log2_tab_at n)
  else if Z.shiftr n 8 <=? 127 then u32 (log2_tab_at (Z.shiftr n 8) + 8)
  else if Z.shiftr n 16 <=? 127 then u32 (log2_tab_at (Z.shiftr n 16) + 16)
  else if Z.shiftr n 24 <=? 127 then u32 (log2_tab_at (Z.shiftr n 24) + 24)
  else 31.

(** ** The sample-position table [random_pos[32][2]] *)

Definition table := list (Z * Z).

(** Static storage: zero-initialised. *)
Definition random_pos_static : table := repeat (0, 0) 32.

Definition row_slot (r : Z * Z) (j : Z) : Z :=
  if j =? 0 then fst r else snd r.

Definition row_set (r : Z * Z) (j v : Z) : Z * Z :=
  if j =? 0 then (v, snd r) else (fst r, v).

(** [random_pos[i][j]]; an index outside the array (undefined in C) reads 0
    here. *)
Definition tbl_get (t : table) (i j : Z) : Z :=
  if (0 <=? i) && (i <? Z.of_nat (length t))
  then row_slot (nth (Z.to_nat i) t (0, 0)) j
  else 0.

Fixpoint list_upd {A} (l : list A) (n : nat) (f : A -> A) : list A :=
  match l, n with
  | [], _ => []
  | x :: l', O => f x :: l'
  | x :: l', S n' => x :: list_upd l' n' f
  end.

(** [random_pos[i][j] = v]; a store outside the array (undefined in C) is
    dropped here. *)
Definition tbl_set (t : table) (i j v : Z) : table :=
  if 0 <=? i then list_upd t (Z.to_nat i) (fun r => row_set r j v) else t.

Section Hash.

Context {crc : CRC32}.

(** The calls as the C code makes them: the accumulator is taken on 32 bits,
    the data operand on 32 or 64 bits, the result is a 32-bit value. *)
Definition lj_crc32_u32 (h v : Z) : Z := u32 (hw_crc32_u32 (u32 h) (u32 v)).
Definition lj_crc32_u64 (h v : Z) : Z := u32 (hw_crc32_u64 (u32 h) (u64 v)).

(** ** Length-band routines *)

(** hash string with len in [1, 4) *)
Definition lj_str_hash_1_4 (str : memory) (len : Z) : M Z :=
  let h := len in
  a <- load_u8 str 0 ;;
  x <- load_u8 str (len - 1) ;;
  let h := Z.lxor h x in
  b <- load_u8 str (Z.shiftr len 1) ;;
  let h := Z.lxor h b in
  let h := u32 (h - lj_rol b 14) in
  let a := Z.lxor a h in
  let a := u32 (a - lj_rol h 11) in
  let b := Z.lxor b a in
  let b := u32 (b - lj_rol a 25) in
  let h := Z.lxor h b in
  let h := u32 (h - lj_rol b 16) in
  ret h.

(** hash string with len in [4, 16) *)
Definition lj_str_hash_4_16 (str : memory) (len : Z) : M Z :=
  ' (v1, v2) <-
    (if 8 <=? len then
       v1 <- cast_uint64p str 0 ;;
       v2 <- cast_uint64p str (len - 8) ;;
       ret (v1, v2)
     else
       v1 <- cast_uint32p str 0 ;;
       v2 <- cast_uint32p str (len - 4) ;;
       ret (v1, v2)) ;;
  let h := lj_crc32_u32 0 len in
  let h := lj_crc32_u64 h v1 in
  let h := lj_crc32_u64 h v2 in
  ret (u32 h).

(** The stride loop of [lj_str_hash_16_128]:
    [for (i = 0; i < len - 16; i += 16)], all of [i], [len - 16] and
    [i += 16] in [uint32_t]; [h1 += ...] in [uint64_t]. *)
Fixpoint lj_str_hash_16_128_loop (fuel : nat) (str : memory) (len : Z)
    (i h1 h2 : Z) : M (Z * Z) :=
  match fuel with
  | O => None
  | S fuel' =>
      if i <? u32 (len - 16) then
        w1 <- cast_uint64p str i ;;
        let h1 := u64 (h1 + lj_crc32_u64 h1 w1) in
        w2 <- cast_uint64p str (i + 8) ;;
        let h2 := u64 (h2 + lj_crc32_u64 h2 w2) in
        lj_str_hash_16_128_loop fuel' str len (u32 (i + 16)) h1 h2
      else ret (h1, h2)
  end.

(** The body of [lj_str_hash_16_128] up to its [return]: the accumulators
    [h1] and [h2] as the [return] statement finds them. *)
Definition lj_str_hash_16_128_accs (fuel : nat) (str : memory) (len : Z)
    : M (Z * Z) :=
  let h1 := lj_crc32_u32 0 len in
  let h2 := 0 in
  ' (h1, h2) <- lj_str_hash_16_128_loop fuel str len 0 h1 h2 ;;
  w1 <- cast_uint64p str (len - 16) ;;
  let h1 := lj_crc32_u64 h1 w1 in
  w2 <- cast_uint64p str (len - 8) ;;
  let h2 := lj_crc32_u64 h2 w2 in
  ret (h1, h2).

(** hash string with length in [16, 128) *)
Definition lj_str_hash_16_128 (fuel : nat) (str : memory) (len : Z) : M Z :=
  ' (h1, h2) <- lj_str_hash_16_128_accs fuel str len ;;
  ret (lj_crc32_u32 h1 h2).

(** ** Hashing strings with length >= 128 *)

Definition get_random_pos_unsafe (random_pos : table)
    (chunk_sz_order idx : Z) : Z :=
  let pos := tbl_get random_pos chunk_sz_order (Z.land idx 1) in
  pos.

(** loop over 14 chunks, 2 chunks at a time:
    [for (i = 0, chunk_ptr = str; i < (chunk_num / 2 - 1);
          chunk_ptr += chunk_sz, i++)].
    [chunk_ptr] is kept as its byte offset from [str]. *)
Fixpoint lj_str_hash_128_above_loop (fuel : nat) (str : memory)
    (chunk_num chunk_sz pos1 pos2 : Z) (i chunk_ptr h1 h2 : Z)
    : M (Z * Z * Z) :=
  match fuel with
  | O => None
  | S fuel' =>
      if i <? u32 (chunk_num / 2 - 1) then
        v <- cast_uint64p str (chunk_ptr + pos1) ;;
        let h1 := lj_crc32_u64 h1 v in
        v <- cast_uint64p str (chunk_ptr + chunk_sz + pos2) ;;
        let h2 := lj_crc32_u64 h2 v in
        lj_str_hash_128_above_loop fuel' str chunk_num chunk_sz pos1 pos2
          (u32 (i + 1)) (chunk_ptr + chunk_sz) h1 h2
      else ret (chunk_ptr, h1, h2)
  end.

Definition lj_str_hash_128_above (fuel : nat) (random_pos : table)
    (str : memory) (len : Z) : M Z :=
  let chunk_num := 16 in
  let chunk_sz := len / chunk_num in
  let chunk_sz_log2 := log2_floor chunk_sz in
  let pos1 := get_random_pos_unsafe random_pos chunk_sz_log2 0 in
  let pos2 := get_random_pos_unsafe random_pos chunk_sz_log2 1 in
  let h1 := lj_crc32_u32 0 len in
  let h2 := 0 in
  ' (chunk_ptr, h1, h2) <-
    lj_str_hash_128_above_loop fuel str chunk_num chunk_sz pos1 pos2
      0 0 h1 h2 ;;
  (* the last two chunks *)
  v <- cast_uint64p str (chunk_ptr + pos1) ;;
  let h1 := lj_crc32_u64 h1 v in
  v <- cast_uint64p str (chunk_ptr + chunk_sz - 8 - pos2) ;;
  let h2 := lj_crc32_u64 h2 v in
  (* process the trailing part *)
  w <- cast_uint64p str 0 ;;
  let h1 := lj_crc32_u64 h1 w in
  w <- cast_uint64p str (len - 8) ;;
  let h2 := lj_crc32_u64 h2 w in
  let h1 := lj_crc32_u32 h1 h2 in
  ret (u32 h1).

(** ** Dispatcher.  [len] is a [size_t]; the routines take it as
    [uint32_t].  NOTE: the "len" should not be zero. *)
Definition lj_str_hash_crc32 (fuel : nat) (random_pos : table)
    (str : memory) (len : Z) : M Z :=
  if len <? 128 then
    if 16 <=? len then lj_str_hash_16_128 fuel str (u32 len)
    else if 4 <=? len then lj_str_hash_4_16 str (u32 len)
    else lj_str_hash_1_4 str (u32 len)
  else lj_str_hash_128_above fuel random_pos str (u32 len).

(** ** Portable fallback.  [lenx] is a [size_t], [len] its [MSize]
    truncation; the final [else] branch is the early [return 0]. *)

Definition lj_str_hash_orig (str : memory) (lenx : Z) : M Z :=
  let len := u32 lenx in
  let h := len in
  r <-
    (if 4 <=? len then
       a <- lj_getu32 str 0 ;;
       x <- lj_getu32 str (len - 4) ;;
       let h := Z.lxor h x in
       b <- lj_getu32 str (Z.shiftr len 1 - 2) ;;
       let h := Z.lxor h b in
       let h := u32 (h - lj_rol b 14) in
       y <- lj_getu32 str (Z.shiftr len 2 - 1) ;;
       let b := u32 (b + y) in
       ret (Some (a, b, h))
     else if 0 <? len then
       a <- load_u8 str 0 ;;
       x <- load_u8 str (len - 1) ;;
       let h := Z.lxor h x in
       b <- load_u8 str (Z.shiftr len 1) ;;
       let h := Z.lxor h b in
       let h := u32 (h - lj_rol b 14) in
       ret (Some (a, b, h))
     else ret None) ;;
  match r with
  | None => ret 0
  | Some (a, b, h) =>
      let a := Z.lxor a h in
      let a := u32 (a - lj_rol h 11) in
      let b := Z.lxor b a in
      let b := u32 (b - lj_rol a 25) in
      let h := Z.lxor h b in
      let h := u32 (h - lj_rol b 16) in
      ret h
  end.

(** ** Initialisation of the sample-position table *)

(** The C library's generator: [RAND_MAX], and [random_seq seed k], the value
    of the [k]-th call of [random()] after [srandom(seed)]. *)
Variable RAND_MAX : Z.
Variable random_seq : Z -> nat -> Z.

Record init_state := mk_init_state {
  st_random_pos : table;
  st_random_calls : nat
}.

Definition random (seed : Z) (st : init_state) : Z * init_state :=
  (random_seq seed (st_random_calls st),
   mk_init_state (st_random_pos st) (S (st_random_calls st))).

(** [random_pos[i][j] = v], the value converted to [uint32_t]. *)
Definition store (st : init_state) (i j v : Z) : init_state :=
  mk_init_state (tbl_set (st_random_pos st) i j (u32 v)) (st_random_calls st).

(** [#define POW2_MASK(n) ((1L << (n)) - 1)], on [long]: no shift of the
    initialisation ([n <= 32]) leaves a 64-bit [long]. *)
Definition POW2_MASK (n : Z) : Z := Z.shiftl 1 n - 1.

(** [for (i = 0; i < 3; i++)]: no random value for chunks smaller than
    8 bytes. *)
Fixpoint init_random_zero (fuel : nat) (i : Z) (st : init_state)
    : option (Z * init_state) :=
  match fuel with
  | O => None
  | S fuel' =>
      if i <? 3 then
        let st := store st i 1 0 in
        let st := store st i 0 0 in
        init_random_zero fuel' (i + 1) st
      else Some (i, st)
  end.

(** [for (; i < rml; i++)] *)
Fixpoint init_random_masked (fuel : nat) (seed rml : Z) (i : Z)
    (st : init_state) : option (Z * init_state) :=
  match fuel with
  | O => None
  | S fuel' =>
      if i <? rml then
        let (r, st) := random seed st in
        let st := store st i 0 (Z.land r (POW2_MASK (i + 1))) in
        let (r, st) := random seed st in
        let st := store st i 1 (Z.land r (POW2_MASK (i + 1))) in
        init_random_masked fuel' seed rml (i + 1) st
      else Some (i, st)
  end.

(** [for (j = 0; j < 2; j++)], inside the last loop. *)
Fixpoint init_random_scaled_row (fuel : nat) (seed rml i : Z) (j : Z)
    (st : init_state) : option init_state :=
  match fuel with
  | O => None
  | S fuel' =>
      if j <? 2 then
        let scale := tbl_get (st_random_pos st) (i - rml) 0 in
        let scale := if scale =? 0 then 1 else scale in
        let (r, st) := random seed st in
        let v := u32 (Z.land (r * scale) (POW2_MASK (i + 1))) in
        let st := store st i j v in
        init_random_scaled_row fuel' seed rml i (j + 1) st
      else Some st
  end.

(** [for (; i < 31; i++)] *)
Fixpoint init_random_scaled (fuel : nat) (seed rml : Z) (i : Z)
    (st : init_state) : option init_state :=
  match fuel with
  | O => None
  | S fuel' =>
      if i <? 31 then
        match init_random_scaled_row fuel seed rml i 0 st with
        | None => None
        | Some st => init_random_scaled fuel' seed rml (i + 1) st
        end
      else Some st
  end.

(** This function is to populate [random_pos].  [pid] and [time] are the
    results of [getpid()] and [time(NULL)]. *)
Definition lj_str_hash_init_random (fuel : nat) (pid time : Z)
    (random_pos : table) : option table :=
  (* Calculate the ceil(log2(RAND_MAX)) *)
  let rml := to_int (log2_floor (u32 RAND_MAX)) in
  let rml := if Z.land RAND_MAX (RAND_MAX - 1) =? 0 then rml else rml + 1 in
  (* Init seed *)
  let seed := to_int (lj_crc32_u32 0 pid) in
  let seed := to_int (lj_crc32_u32 seed time) in
  let st := mk_init_state random_pos 0 in
  (* Now start to populate the random_pos[][]. *)
  match init_random_zero fuel 0 st with
  | None => None
  | Some (i, st) =>
      match init_random_masked fuel seed rml i st with
      | None => None
      | Some (i, st) =>
          match init_random_scaled fuel seed rml i st with
          | None => None
          | Some st => Some (st_random_pos st)
          end
      end
  end.

(** ** Capability probe and selector *)

Inductive arch := LUAJIT_ARCH_X64 | LUAJIT_ARCH_ARM64.

(** What the probe asks the machine: the target, the result of
    [lj_vm_cpuid(1, features)] ([None] when it returns 0) and of
    [getauxval(AT_HWCAP)]. *)
Record hardware := mk_hardware {
  LUAJIT_TARGET : arch;
  lj_vm_cpuid_1 : option (list Z);
  getauxval_AT_HWCAP : Z
}.

Definition F_CPU_SSE4_2 : Z := Z.shiftl 1 20.
Definition HWCAP_CRC32 : Z := Z.shiftl 1 7.
Definition ENOENT : Z := 2.

Definition lj_check_crc32_support (hw : hardware) : bool :=
  match LUAJIT_TARGET hw with
  | LUAJIT_ARCH_X64 =>
      match lj_vm_cpuid_1 hw with
      | Some features => negb (Z.land (nth 2 features 0) F_CPU_SSE4_2 =? 0)
      | None => false
      end
  | LUAJIT_ARCH_ARM64 =>
      let hwcap := u32 (getauxval_AT_HWCAP hw) in
      if negb (hwcap =? ENOENT) then negb (Z.land hwcap HWCAP_CRC32 =? 0)
      else false
  end.

Inductive StrHashFunction := FN_lj_str_hash_crc32 | FN_lj_str_hash_orig.

(** The file's static storage: the function-local [static strhashfn]
    ([None] is [NULL]) and [random_pos]; [init_random_runs] counts the calls
    of [lj_str_hash_init_random] (ghost). *)
Record statics := mk_statics {
  strhashfn : option StrHashFunction;
  random_pos : table;
  init_random_runs : nat
}.

Definition statics_initial : statics := mk_statics None random_pos_static 0.

Record global_State := mk_global_State {
  g_strhashfn : option StrHashFunction
}.

(** The environment of one call of [lj_init_strhashfn]. *)
Record call_env := mk_call_env {
  env_hw : hardware;
  env_pid : Z;
  env_time : Z
}.

Definition lj_init_strhashfn (fuel : nat) (env : call_env) (s : statics)
    (g : global_State) : option (statics * global_State) :=
  let s' :=
    match strhashfn s with
    | None =>
        if lj_check_crc32_support (env_hw env) then
          match lj_str_hash_init_random fuel (env_pid env) (env_time env)
                  (random_pos s) with
          | None => None
          | Some t =>
              Some (mk_statics (Some FN_lj_str_hash_crc32) t
                      (S (init_random_runs s)))
          end
        else
          Some (mk_statics (Some FN_lj_str_hash_orig) (random_pos s)
                  (init_random_runs s))
    | Some _ => Some s
    end in
  match s' with
  | None => None
  | Some s' => Some (s', mk_global_State (strhashfn s'))
  end.

(** Calling the published function. *)
Definition call_strhashfn (fn : StrHashFunction) (fuel : nat) (s : statics)
    (str : memory) (len : Z) : M Z :=
  match fn with
  | FN_lj_str_hash_crc32 => lj_str_hash_crc32 fuel (random_pos s) str len
  | FN_lj_str_hash_orig => lj_str_hash_orig str len
  end.

(** Sequences of calls of [lj_init_strhashfn] as steps on the static state:
    [init_calls fuel s gs s'] runs one call per element of [gs], each in an
    environment and on a [global_State] of its own, from statics [s] to
    statics [s']; [gs] lists the [global_State] every call leaves. *)
Inductive init_calls (fuel : nat)
    : statics -> list global_State -> statics -> Prop :=
| init_calls_nil s : init_calls fuel s [] s
| init_calls_cons env g s s1 g1 gs s2 :
    lj_init_strhashfn fuel env s g = Some (s1, g1) ->
    init_calls fuel s1 gs s2 ->
    init_calls fuel s (g1 :: gs) s2.

(** The same steps with the calls made explicit:
    [init_calls_on fuel s calls gs s'] runs [lj_init_strhashfn] once per
    element of [calls], each giving the environment of the call and the
    [global_State] it is called on. *)
Inductive init_calls_on (fuel : nat)
    : statics -> list (call_env * global_State) -> list global_State ->
      statics -> Prop :=
| init_calls_on_nil s : init_calls_on fuel s [] [] s
| init_calls_on_cons env g s s1 g1 calls gs s2 :
    lj_init_strhashfn fuel env s g = Some (s1, g1) ->
    init_calls_on fuel s1 calls gs s2 ->
    init_calls_on fuel s ((env, g) :: calls) (g1 :: gs) s2.

End Hash.

(** ** Vocabulary of the statements *)

(** The table agrees with floor(log2) on 1..127 (checked by evaluation). *)
Definition log2_tab_checked : bool :=
  forallb (fun k => log2_tab_at (Z.of_nat k) =? Z.log2 (Z.of_nat k))
          (seq 1 127).

(** [covered t k]: some access of the trace [t] spans byte [k]. *)
Definition covered (t : list access) (k : Z) : Prop :=
  exists a, In a t /\ covers a k.

(** The cell [random_pos[k][j]] holds an offset in [0, 2^(k+1)), and 0 when
    [k < 3]. *)
Definition cell_ok (t : table) (k j : Z) : Prop :=
  0 <= tbl_get t k j < 2 ^ (k + 1) /\ (k < 3 -> tbl_get t k j = 0).

(** Progress of the initialisation: the table has its 32 rows and every cell
    before [(i, j)], rows first, is [cell_ok]. *)
Definition filled_upto (t : table) (i j : Z) : Prop :=
  length t = 32%nat /\
  forall k s, 0 <= k -> 0 <= s <= 1 -> k < i \/ (k = i /\ s < j) ->
    cell_ok t k s.

(** Two memories agree on every byte spanned by the accesses of [t]. *)
Definition agree_on (t : list access) (m1 m2 : memory) : Prop :=
  forall a k, In a t -> covers a k -> m1 k = m2 k.

(** The sampled reads of [lj_str_hash_128_above]: all its reads but the two
    trailing folds of the buffer's head and tail. *)
Definition sampled_reads (t : list access) : list access :=
  removelast (removelast t).

Section Statements.

Context {crc : CRC32}.

(** [w1] folded into [h1], [w2] folded into [h2], then the final combine of
    [h2] into [h1]. *)
Definition fold_pair (h1 h2 w1 w2 : Z) : Z :=
  lj_crc32_u32 (lj_crc32_u64 h1 w1) (lj_crc32_u64 h2 w2).

(** The tail of [lj_str_hash_16_128] after the stride loop folds the word at
    offset [o1] into [h1] and the word at offset [o2] into [h2], and the
    result is the final combine of these two accumulators. *)
Definition tail_16_128_folds (fuel : nat) (str : memory) (len o1 o2 : Z)
    : Prop :=
  exists h1 h2 t,
    lj_str_hash_16_128_loop fuel str len 0 (lj_crc32_u32 0 len) 0
      = Some ((h1, h2), t) /\
    value (lj_str_hash_16_128_accs fuel str len) =
      Some (lj_crc32_u64 h1 (le_bytes str o1 8),
            lj_crc32_u64 h2 (le_bytes str o2 8)) /\
    value (lj_str_hash_16_128 fuel str len) =
      Some (fold_pair h1 h2 (le_bytes str o1 8) (le_bytes str o2 8)).

End Statements.

(** A generator whose every draw is 5, and one with varying draws. *)
Definition random_always_5 : Z -> nat -> Z := fun _ _ => 5.
Definition random_lcg : Z -> nat -> Z :=
  fun seed k => (seed * 1103515245 + 12345 * (Z.of_nat k + 7)) mod 2 ^ 31.

(** The table [lj_str_hash_init_random] builds from [random_always_5]. *)
Definition random_pos_5 : table :=
  repeat (0, 0) 3 ++ repeat (5, 5) 28 ++ [(0, 0)].

(** A 200-byte string and a copy that differs at byte 150 only. *)
Definition bytes_200 : memory := fun k => k mod 251.
Definition bytes_200_flip_150 : memory :=
  fun k => if k =? 150 then 0 else k mod 251.

(** An x86-64 machine with SSE 4.2. *)
Definition x64_sse42 : hardware :=
  mk_hardware LUAJIT_ARCH_X64 (Some [0; 0; F_CPU_SSE4_2; 0]) 0.

(** An ARM64 machine without the CRC32 capability. *)
Definition arm64_plain : hardware := mk_hardware LUAJIT_ARCH_ARM64 None 0.

(** The statics once [lj_str_hash_crc32] is selected with the table
    [random_pos_5], and the [global_State] a call then leaves. *)
Definition statics_crc32_5 : statics :=
  mk_statics (Some FN_lj_str_hash_crc32) random_pos_5 1.
Definition published_crc32 : global_State :=
  mk_global_State (Some FN_lj_str_hash_crc32).

(** A 16-byte string whose byte at offset [k] is [k]. *)
Definition bytes_0_15 : memory := fun k => k.

Arguments le_bytes : simpl never.
Arguments u32 : simpl never.
Arguments u64 : simpl never.
Arguments lj_rol : simpl never.
Arguments lj_crc32_u32 : simpl never.
Arguments lj_crc32_u64 : simpl never.


(** ** Vocabulary of the further properties *)

(** Every cell of rows 0..30 holds an offset below [2^(row+1)]. *)
Definition table_bounded (t : table) : Prop :=
  forall order slot, 0 <= order <= 30 -> 0 <= slot <= 1 ->
    0 <= tbl_get t order slot < 2 ^ (order + 1).

(** Two buffers of length [L] with the same contents. *)
Definition same_bytes (L : Z) (m1 m2 : memory) : Prop :=
  forall k, 0 <= k < L -> m1 k = m2 k.

(** The result of [f] is decided by the bytes it reads. *)
Definition reads_decide {A} (f : memory -> M A) : Prop :=
  forall m1 m2 r t,
    f m1 = Some (r, t) -> agree_on t m1 m2 -> f m2 = Some (r, t).

(** The scale factor of the last loop of [lj_str_hash_init_random]:
    [random_pos[k][0]], or 1 when that is 0. *)
Definition scale_of (t : table) (k : Z) : Z :=
  let scale := tbl_get t k 0 in if scale =? 0 then 1 else scale.

(** What the initialisation stores in [random_pos[k][s]], given the number
    [rml] of random bits: the draw number [2 * (k - 3) + s], masked, and
    scaled first from row [rml] on. *)
Definition cell_value (random_seq : Z -> nat -> Z) (seed rml : Z)
    (t : table) (k s : Z) : Z :=
  let r := random_seq seed (Z.to_nat (2 * (k - 3) + s)) in
  if k <? rml then r mod 2 ^ (k + 1)
  else (r * scale_of t (k - rml)) mod 2 ^ (k + 1).

(** Progress of the initialisation, with values: [2 * (i - 3) + j] draws
    were made and every cell of rows 3..31 before [(i, j)] holds its
    [cell_value]. *)
Definition drawn_upto (random_seq : Z -> nat -> Z) (seed rml : Z)
    (st : init_state) (i j : Z) : Prop :=
  length (st_random_pos st) = 32%nat /\
  Z.of_nat (st_random_calls st) = 2 * (i - 3) + j /\
  forall k s, 3 <= k <= 31 -> 0 <= s <= 1 -> k < i \/ (k = i /\ s < j) ->
    tbl_get (st_random_pos st) k s
      = cell_value random_seq seed rml (st_random_pos st) k s.

(** The mix of [lj_str_hash_1_4] on the length and the first, last and
    middle byte, with the 32-bit wrap-around and the rotation written with
    masks (a form that evaluates fast). *)
Definition w32 (x : Z) : Z := Z.land x 4294967295.

Definition rol_masked (x n : Z) : Z :=
  Z.lor (w32 (Z.shiftl x n)) (Z.shiftr x (32 - n)).

Definition mix_1_4 (len first last middle : Z) : Z :=
  let a := first in
  let b := middle in
  let h := Z.lxor len last in
  let h := Z.lxor h b in
  let h := w32 (h - rol_masked b 14) in
  let a := Z.lxor a h in
  let a := w32 (a - rol_masked h 11) in
  let b := Z.lxor b a in
  let b := w32 (b - rol_masked a 25) in
  let h := Z.lxor h b in
  w32 (h - rol_masked b 16).

(** The hash of a string of one or two bytes. *)
Definition short_hash (l : list Z) : Z :=
  match l with
  | [x] => mix_1_4 1 x x x
  | [x; y] => mix_1_4 2 x y y
  | _ => 0
  end.

(** All byte values, and all strings of one or two bytes. *)
Definition range256 : list Z := map Z.of_nat (seq 0 256).

Definition short_strs : list (list Z) :=
  map (fun x => [x]) range256 ++
  map (fun p => [fst p; snd p]) (list_prod range256 range256).

(** Strictly increasing lists, and the sort used to check that a list has
    no duplicates. *)
Fixpoint strict_sorted (l : list Z) : bool :=
  match l with
  | x :: ((y :: _) as l') => (x <? y) && strict_sorted l'
  | _ => true
  end.

Module ZLeb := OTF_to_TTLB BinInt.Z.
Module ZSort := Sort ZLeb.

(** A buffer with the bytes of [bytes_200] and other surroundings. *)
Definition bytes_200_elsewhere : memory :=
  fun k => if (0 <=? k) && (k <? 200) then k mod 251 else 255.

(** A table that agrees with [random_pos_5] on rows 3..27 only. *)
Definition random_pos_5_other_rows : table :=
  repeat (7, 7) 3 ++ repeat (5, 5) 25 ++ repeat (9, 9) 4.

(** Rows [lo .. lo + n - 1] of two tables agree (checked by evaluation). *)
Definition rows_agreeb (t1 t2 : table) (lo n : nat) : bool :=
  forallb (fun k => (tbl_get t1 (Z.of_nat k) 0 =? tbl_get t2 (Z.of_nat k) 0)
                    && (tbl_get t1 (Z.of_nat k) 1 =? tbl_get t2 (Z.of_nat k) 1))
          (seq lo n).

(** * Properties *)

(** ** Machine-integer facts *)

Lemma u32_small x : 0 <= x < 2 ^ 32 -> u32 x = x.
Proof. intros H. unfold u32. apply Z.mod_small. exact H. Qed.

Lemma u32_range x : 0 <= u32 x < 2 ^ 32.
Proof. unfold u32. apply Z.mod_pos_bound. lia. Qed.

Lemma u32_le x : 0 <= x -> u32 x <= x.
Proof. intros H. unfold u32. apply Z.mod_le; lia. Qed.

(** ** [log2_floor] *)

Lemma log2_tab_length : length log2_tab = 128%nat.
Proof. reflexivity. Qed.

Lemma log2_tab_at_0 : log2_tab_at 0 = -1.
Proof. reflexivity. Qed.

Lemma log2_tab_at_log2 n : 1 <= n <= 127 -> log2_tab_at n = Z.log2 n.
Proof.
  intros Hn.
  assert (Hc : log2_tab_checked = true) by (vm_compute; reflexivity).
  unfold log2_tab_checked in Hc. rewrite forallb_forall in Hc.
  specialize (Hc (Z.to_nat n)).
  rewrite Z2Nat.id in Hc by lia.
  apply Z.eqb_eq, Hc, in_seq. lia.
Qed.

(** One shifted case: the earlier cases failed, so [2^(s-1) <= n]; the
    table is read at [n >> s], entry 0 included. *)
Lemma log2_floor_shifted n s :
  8 <= s <= 24 -> 2 ^ (s - 1) <= n -> Z.shiftr n s <= 127 ->
  u32 (log2_tab_at (Z.shiftr n s) + s) = Z.log2 n.
Proof.
  intros Hs Hlo Hhi.
  assert (Hpos : 0 < 2 ^ (s - 1)) by (apply Z.pow_pos_nonneg; lia).
  assert (Hm : 0 <= Z.shiftr n s) by (apply Z.shiftr_nonneg; lia).
  destruct (Z.eq_dec (Z.shiftr n s) 0) as [H0 | H0].
  - rewrite H0, log2_tab_at_0.
    assert (Hl : Z.log2 n = s - 1).
    { apply Z.log2_unique; [lia|]. split; [exact Hlo|].
      replace (Z.succ (s - 1)) with s by lia.
      rewrite Z.shiftr_div_pow2 in H0 by lia.
      assert (0 < 2 ^ s) by (apply Z.pow_pos_nonneg; lia).
      apply Z.div_small_iff in H0; lia. }
    rewrite Hl. replace (-1 + s) with (s - 1) by lia.
    apply u32_small. lia.
  - rewrite log2_tab_at_log2 by lia.
    rewrite Z.log2_shiftr by lia.
    assert (Hge : s <= Z.log2 n).
    { apply Z.log2_le_pow2; [lia|].
      rewrite Z.shiftr_div_pow2 in * by lia.
      assert (0 < 2 ^ s) by (apply Z.pow_pos_nonneg; lia).
      destruct (Z_lt_le_dec n (2 ^ s)) as [Hlt | Hle]; [|exact Hle].
      exfalso. apply H0. apply Z.div_small. lia. }
    replace (Z.max 0 (Z.log2 n - s) + s) with (Z.log2 n) by lia.
    apply u32_small. split; [apply Z.log2_nonneg|].
    assert (Z.log2 (Z.shiftr n s) <= Z.log2 127) by (apply Z.log2_le_mono; lia).
    rewrite Z.log2_shiftr in H by lia.
    change (Z.log2 127) with 6 in H. lia.
Qed.

Lemma shiftr_gt_127 n s :
  0 <= s -> 0 <= n -> ~ Z.shiftr n s <= 127 -> 2 ^ (s + 7) <= n.
Proof.
  intros Hs Hn H. rewrite Z.shiftr_div_pow2 in H by lia.
  assert (Hp : 0 < 2 ^ s) by (apply Z.pow_pos_nonneg; lia).
  rewrite Z.pow_add_r by lia. change (2 ^ 7) with 128.
  assert (128 <= n / 2 ^ s) by lia.
  pose proof (Z.mul_div_le n (2 ^ s) Hp). nia.
Qed.

Lemma log2_floor_log2 n : 1 <= n < 2 ^ 32 -> log2_floor n = Z.log2 n.
Proof.
  intros Hn. unfold log2_floor.
  destruct (Z.leb_spec n 127) as [H0 | H0].
  { rewrite log2_tab_at_log2 by lia. apply u32_small.
    split; [apply Z.log2_nonneg|].
    assert (Z.log2 n <= Z.log2 127) by (apply Z.log2_le_mono; lia).
    change (Z.log2 127) with 6 in H. lia. }
  destruct (Z.leb_spec (Z.shiftr n 8) 127) as [H1 | H1].
  { apply log2_floor_shifted; [lia| |exact H1]. change (2 ^ (8 - 1)) with 128. lia. }
  destruct (Z.leb_spec (Z.shiftr n 16) 127) as [H2 | H2].
  { apply log2_floor_shifted; [lia| |exact H2].
    apply (shiftr_gt_127 n 8); lia. }
  destruct (Z.leb_spec (Z.shiftr n 24) 127) as [H3 | H3].
  { apply log2_floor_shifted; [lia| |exact H3].
    apply (shiftr_gt_127 n 16); lia. }
  symmetry. apply Z.log2_unique; [lia|].
  split; [apply (shiftr_gt_127 n 24); lia | change (31 + 1) with 32; lia].
Qed.

Lemma log2_floor_0 : log2_floor 0 = 2 ^ 32 - 1.
Proof. reflexivity. Qed.

Lemma log2_floor_sandwich n :
  1 <= n < 2 ^ 32 ->
  0 <= log2_floor n <= 31 /\ 2 ^ log2_floor n <= n < 2 ^ (log2_floor n + 1).
Proof.
  intros Hn. rewrite log2_floor_log2 by exact Hn.
  pose proof (Z.log2_spec n ltac:(lia)) as Hs.
  pose proof (Z.log2_nonneg n) as H0.
  assert (Z.log2 n < 32) by (apply Z.log2_lt_pow2; lia).
  replace (Z.log2 n + 1) with (Z.succ (Z.log2 n)) by lia.
  lia.
Qed.

(** C10: for every 32-bit unsigned [n] with [1 <= n <= 2^32 - 1],
    [log2_floor n] is floor(log2 n): it is [Z.log2 n], the exponent of the
    largest power of two not above [n]; it is 31 from [2^31] on; below 128
    the table is read at [n] itself (never at entry 0), and entry 0 (value
    -1) is read in the shifted cases exactly where adding 8, 16 or 24 gives
    the floor 7, 15 or 23. *)
Theorem log2_floor_correct (n : Z) (Hn : 1 <= n <= 2 ^ 32 - 1) :
  log2_floor n = Z.log2 n /\
  2 ^ log2_floor n <= n < 2 ^ (log2_floor n + 1) /\
  (2 ^ 31 <= n -> log2_floor n = 31) /\
  (n <= 127 -> log2_floor n = log2_tab_at n) /\
  (2 ^ 7 <= n < 2 ^ 8 -> log2_floor n = log2_tab_at 0 + 8) /\
  (2 ^ 15 <= n < 2 ^ 16 -> log2_floor n = log2_tab_at 0 + 16) /\
  (2 ^ 23 <= n < 2 ^ 24 -> log2_floor n = log2_tab_at 0 + 24).
Proof.
  assert (Hr : 1 <= n < 2 ^ 32) by lia.
  pose proof (log2_floor_log2 n Hr) as Hl.
  pose proof (log2_floor_sandwich n Hr) as [_ Hs].
  split; [exact Hl|]. split; [exact Hs|].
  rewrite Hl. rewrite log2_tab_at_0.
  repeat split.
  - intros H. apply Z.log2_unique; [lia|]. change (31 + 1) with 32. lia.
  - intros H. symmetry. apply log2_tab_at_log2. lia.
  - intros H. apply Z.log2_unique; lia.
  - intros H. apply Z.log2_unique; lia.
  - intros H. apply Z.log2_unique; lia.
Qed.

(** ** The load monad *)

Lemma bind_Some {A B} (m : M A) (f : A -> M B) b t :
  bind m f = Some (b, t) <->
  exists a t1 t2, m = Some (a, t1) /\ f a = Some (b, t2) /\ t = t1 ++ t2.
Proof.
  unfold bind. split.
  - destruct m as [[a t1]|]; [|discriminate].
    destruct (f a) as [[b' t2]|] eqn:E; [|discriminate].
    intros H. inversion H; subst. exists a, t1, t2. auto.
  - intros (a & t1 & t2 & -> & E & ->). rewrite E. reflexivity.
Qed.

Lemma covered_app_l t1 t2 k : covered t1 k -> covered (t1 ++ t2) k.
Proof. intros (a & Hin & Hc). exists a. split; [apply in_or_app; auto|exact Hc]. Qed.

Lemma covered_app_r t1 t2 k : covered t2 k -> covered (t1 ++ t2) k.
Proof. intros (a & Hin & Hc). exists a. split; [apply in_or_app; auto|exact Hc]. Qed.

Lemma covered_cons_here off w t k :
  off <= k < off + w -> covered (mk_access off w :: t) k.
Proof. intros H. exists (mk_access off w). split; [left; reflexivity|exact H]. Qed.

Lemma covered_cons_later a t k : covered t k -> covered (a :: t) k.
Proof. intros (b & Hin & Hc). exists b. split; [right; exact Hin|exact Hc]. Qed.

Section HashProperties.

Context {crc : CRC32}.

(** ** The [16, 128) routine *)

(** The stride loop returns when the fuel covers the remaining strides; its
    reads stay in the buffer and span every byte from [i] up to
    [len - 16]. *)
Lemma lj_str_hash_16_128_loop_spec (str : memory) (len : Z) :
  16 <= len < 2 ^ 32 ->
  forall (fuel : nat) (i h1 h2 : Z),
    0 <= i < len -> len - i <= 16 * Z.of_nat fuel ->
    exists r t,
      lj_str_hash_16_128_loop fuel str len i h1 h2 = Some (r, t) /\
      Forall (in_buffer len) t /\
      (forall k, i <= k < len - 16 -> covered t k).
Proof.
  intros Hlen. induction fuel as [|fuel IH]; intros i h1 h2 Hi Hf.
  - lia.
  - cbn [lj_str_hash_16_128_loop].
    rewrite (u32_small (len - 16)) by lia.
    destruct (Z.ltb_spec i (len - 16)) as [Hlt | Hge].
    + rewrite (u32_small (i + 16)) by lia.
      destruct (IH (i + 16)
                  (u64 (h1 + lj_crc32_u64 h1 (le_bytes str i 8)))
                  (u64 (h2 + lj_crc32_u64 h2 (le_bytes str (i + 8) 8))))
        as (r & t & E & Hin & Hcov); [lia | lia |].
      exists r, (mk_access i 8 :: mk_access (i + 8) 8 :: t).
      cbn [bind cast_uint64p]. rewrite E. cbn [app].
      split; [reflexivity|]. split.
      * repeat constructor; cbn; try lia. exact Hin.
      * intros k Hk.
        destruct (Z_lt_le_dec k (i + 8)); [apply covered_cons_here; lia|].
        apply covered_cons_later.
        destruct (Z_lt_le_dec k (i + 16)); [apply covered_cons_here; lia|].
        apply covered_cons_later. apply Hcov. lia.
    + exists (h1, h2), []. split; [reflexivity|]. split; [constructor|].
      intros k Hk. lia.
Qed.

(** The routine in terms of its stride loop. *)
Lemma lj_str_hash_16_128_accs_unfold fuel str len h1 h2 t :
  lj_str_hash_16_128_loop fuel str len 0 (lj_crc32_u32 0 len) 0
    = Some ((h1, h2), t) ->
  lj_str_hash_16_128_accs fuel str len =
    Some ((lj_crc32_u64 h1 (le_bytes str (len - 16) 8),
           lj_crc32_u64 h2 (le_bytes str (len - 8) 8)),
          t ++ [mk_access (len - 16) 8; mk_access (len - 8) 8]).
Proof.
  intros E. unfold lj_str_hash_16_128_accs. rewrite E. reflexivity.
Qed.

Lemma lj_str_hash_16_128_unfold fuel str len h1 h2 t :
  lj_str_hash_16_128_loop fuel str len 0 (lj_crc32_u32 0 len) 0
    = Some ((h1, h2), t) ->
  lj_str_hash_16_128 fuel str len =
    Some (lj_crc32_u32 (lj_crc32_u64 h1 (le_bytes str (len - 16) 8))
                       (lj_crc32_u64 h2 (le_bytes str (len - 8) 8)),
          t ++ [mk_access (len - 16) 8; mk_access (len - 8) 8]).
Proof.
  intros E. unfold lj_str_hash_16_128.
  rewrite (lj_str_hash_16_128_accs_unfold _ _ _ _ _ _ E).
  cbn [bind ret]. rewrite app_nil_r. reflexivity.
Qed.

(** ** Reads of the short routines *)

Lemma lj_str_hash_1_4_reads str len :
  exists h,
    lj_str_hash_1_4 str len =
      Some (h, [mk_access 0 1; mk_access (len - 1) 1;
                mk_access (Z.shiftr len 1) 1]).
Proof. eexists. reflexivity. Qed.

Lemma lj_str_hash_4_16_reads str len :
  exists h,
    lj_str_hash_4_16 str len =
      Some (h, if 8 <=? len
               then [mk_access 0 8; mk_access (len - 8) 8]
               else [mk_access 0 4; mk_access (len - 4) 4]).
Proof.
  unfold lj_str_hash_4_16. destruct (8 <=? len); eexists; reflexivity.
Qed.

Lemma lj_str_hash_16_128_total fuel str len :
  (8 <= fuel)%nat -> 16 <= len < 128 ->
  exists h1 h2 t,
    lj_str_hash_16_128_loop fuel str len 0 (lj_crc32_u32 0 len) 0
      = Some ((h1, h2), t) /\
    Forall (in_buffer len) t /\
    (forall k, 0 <= k < len - 16 -> covered t k).
Proof.
  intros Hf Hlen.
  destruct (lj_str_hash_16_128_loop_spec str len ltac:(lia) fuel 0
              (lj_crc32_u32 0 len) 0) as ([h1 h2] & t & E & Hin & Hcov);
    [lia | lia |].
  exists h1, h2, t. auto.
Qed.

(** C2: for every length [L] in 1..127 and every byte index [i < L], the
    routine the dispatcher selects for [L] ([lj_str_hash_1_4] below 4,
    [lj_str_hash_4_16] below 16, [lj_str_hash_16_128] below 128) returns
    and performs a read whose span covers byte [i]. *)
Theorem short_strings_fully_read (fuel : nat) (random_pos : table)
    (str : memory) (L i : Z) :
  (8 <= fuel)%nat -> 1 <= L <= 127 -> 0 <= i < L ->
  exists h t,
    lj_str_hash_crc32 fuel random_pos str L = Some (h, t) /\
    covered t i /\
    ((1 <= L < 4 /\ lj_str_hash_1_4 str L = Some (h, t)) \/
     (4 <= L < 16 /\ lj_str_hash_4_16 str L = Some (h, t)) \/
     (16 <= L < 128 /\ lj_str_hash_16_128 fuel str L = Some (h, t))).
Proof.
  intros Hf HL Hi. unfold lj_str_hash_crc32.
  rewrite (u32_small L) by lia.
  destruct (Z.ltb_spec L 128) as [_ | ?]; [|lia].
  destruct (Z.leb_spec 16 L) as [H16 | H16].
  - (* [16, 128) *)
    destruct (lj_str_hash_16_128_total fuel str L Hf ltac:(lia))
      as (h1 & h2 & t & E & _ & Hcov).
    rewrite (lj_str_hash_16_128_unfold _ _ _ _ _ _ E).
    do 2 eexists. split; [reflexivity|]. split; [|right; right; split; [lia|reflexivity]].
    destruct (Z_lt_le_dec i (L - 16)) as [Hlo | Hhi].
    + apply covered_app_l, Hcov. lia.
    + apply covered_app_r.
      destruct (Z_lt_le_dec i (L - 8)); [apply covered_cons_here; lia|].
      apply covered_cons_later, covered_cons_here. lia.
  - destruct (Z.leb_spec 4 L) as [H4 | H4].
    + (* [4, 16) *)
      destruct (lj_str_hash_4_16_reads str L) as (h & E). rewrite E.
      do 2 eexists. split; [reflexivity|]. split; [|right; left; split; [lia|reflexivity]].
      destruct (Z.leb_spec 8 L).
      * destruct (Z_lt_le_dec i 8); [apply covered_cons_here; lia|].
        apply covered_cons_later, covered_cons_here. lia.
      * destruct (Z_lt_le_dec i 4); [apply covered_cons_here; lia|].
        apply covered_cons_later, covered_cons_here. lia.
    + (* [1, 4) *)
      destruct (lj_str_hash_1_4_reads str L) as (h & E). rewrite E.
      do 2 eexists. split; [reflexivity|]. split; [|left; split; [lia|reflexivity]].
      assert (HL3 : L = 1 \/ L = 2 \/ L = 3) by lia.
      destruct (Z.eq_dec i 0) as [-> | Hi0]; [apply covered_cons_here; lia|].
      apply covered_cons_later.
      destruct (Z.eq_dec i (L - 1)) as [-> | Hi1]; [apply covered_cons_here; lia|].
      apply covered_cons_later.
      assert (L = 3 /\ i = 1) as [-> ->] by lia.
      apply covered_cons_here. change (Z.shiftr 3 1) with 1. lia.
Qed.

(** C5, the words in the code's order: in [lj_str_hash_16_128], for every
    buffer and length in [16, 128), the two words folded after the stride
    loop are the 8 bytes at indices [len-16 .. len-9], folded into [h1], and
    the buffer's last 8 bytes (indices [len-8 .. len-1]), folded into [h2],
    before the final combine of [h2] into [h1]; these two words are also
    the last two reads, in that order. *)
Theorem lj_str_hash_16_128_tail (fuel : nat) (str : memory) (len : Z) :
  (8 <= fuel)%nat -> 16 <= len < 128 ->
  tail_16_128_folds fuel str len (len - 16) (len - 8) /\
  exists t,
    reads (lj_str_hash_16_128 fuel str len) =
      t ++ [mk_access (len - 16) 8; mk_access (len - 8) 8].
Proof.
  intros Hf Hlen.
  destruct (lj_str_hash_16_128_total fuel str len Hf Hlen)
    as (h1 & h2 & t & E & _ & _).
  pose proof (lj_str_hash_16_128_unfold _ _ _ _ _ _ E) as Eq.
  pose proof (lj_str_hash_16_128_accs_unfold _ _ _ _ _ _ E) as Eqa.
  split.
  - exists h1, h2, t. split; [exact E|].
    rewrite Eq, Eqa. split; reflexivity.
  - exists t. rewrite Eq. reflexivity.
Qed.

(** ** The portable fallback *)

(** C7: for every buffer and every length [L] with [1 <= L <= 3], the
    portable fallback and the [1, 4) routine agree, in value and in reads:
    both read the first, the last and the middle byte and run the same
    rounds. *)
Theorem lj_str_hash_orig_1_4 (str : memory) (L : Z) :
  1 <= L <= 3 ->
  lj_str_hash_orig str L = lj_str_hash_1_4 str L /\
  reads (lj_str_hash_1_4 str L) =
    [mk_access 0 1; mk_access (L - 1) 1; mk_access (Z.shiftr L 1) 1].
Proof.
  intros HL. split; [|reflexivity].
  unfold lj_str_hash_orig. rewrite (u32_small L) by lia.
  destruct (Z.leb_spec 4 L); [lia|].
  destruct (Z.ltb_spec 0 L); [|lia].
  reflexivity.
Qed.

(** C8: the portable fallback returns exactly 0 for length 0, whatever the
    pointer, and reads nothing; the accelerated dispatcher does not accept
    the empty input: at length 0 it runs the [1, 4) routine, which reads the
    byte before the buffer. *)
Theorem lj_str_hash_orig_empty (str : memory) :
  lj_str_hash_orig str 0 = Some (0, []) /\
  forall fuel random_pos,
    lj_str_hash_crc32 fuel random_pos str 0 = lj_str_hash_1_4 str 0 /\
    reads (lj_str_hash_crc32 fuel random_pos str 0) =
      [mk_access 0 1; mk_access (-1) 1; mk_access 0 1] /\
    ~ Forall (in_buffer 0) (reads (lj_str_hash_crc32 fuel random_pos str 0)).
Proof.
  split; [reflexivity|]. intros fuel random_pos.
  split; [reflexivity|]. split; [reflexivity|].
  intros H. change (reads (lj_str_hash_crc32 fuel random_pos str 0))
    with [mk_access 0 1; mk_access (-1) 1; mk_access 0 1] in H.
  inversion H as [|a l Ha _]. destruct Ha as [_ Ha]. cbn in Ha. lia.
Qed.

(** ** The sample-position table *)

Lemma list_upd_length {A} (l : list A) n f : length (list_upd l n f) = length l.
Proof.
  revert n. induction l as [|x l IH]; intros [|n]; cbn; auto.
Qed.

Lemma nth_list_upd_same {A} (l : list A) n f d :
  (n < length l)%nat -> nth n (list_upd l n f) d = f (nth n l d).
Proof.
  revert n. induction l as [|x l IH]; intros [|n] H; cbn in *; try lia; auto.
  apply IH. lia.
Qed.

Lemma nth_list_upd_other {A} (l : list A) n m f d :
  n <> m -> nth n (list_upd l m f) d = nth n l d.
Proof.
  revert n m. induction l as [|x l IH]; intros [|n] [|m] H; cbn; auto; try lia.
Qed.

Lemma tbl_set_length t i j v : length (tbl_set t i j v) = length t.
Proof. unfold tbl_set. destruct (0 <=? i); [apply list_upd_length|reflexivity]. Qed.

Lemma tbl_get_set_other_row t i j v k s :
  k <> i -> tbl_get (tbl_set t i j v) k s = tbl_get t k s.
Proof.
  intros Hk. unfold tbl_get. rewrite tbl_set_length.
  destruct ((0 <=? k) && (k <? Z.of_nat (length t))) eqn:E; [|reflexivity].
  apply andb_prop in E. destruct E as [E1 E2].
  apply Z.leb_le in E1. unfold tbl_set.
  destruct (Z.leb_spec 0 i); [|reflexivity].
  rewrite nth_list_upd_other by lia. reflexivity.
Qed.

Lemma tbl_get_set_same t i j v :
  0 <= i < Z.of_nat (length t) -> 0 <= j <= 1 ->
  tbl_get (tbl_set t i j v) i j = v.
Proof.
  intros Hi Hj. unfold tbl_get. rewrite tbl_set_length.
  destruct (Z.leb_spec 0 i); [|lia].
  destruct (Z.ltb_spec i (Z.of_nat (length t))); [|lia]. cbn [andb].
  unfold tbl_set. destruct (Z.leb_spec 0 i); [|lia].
  rewrite nth_list_upd_same by lia.
  unfold row_slot, row_set. destruct (j =? 0); reflexivity.
Qed.

Lemma tbl_get_set_other_slot t i j v s :
  0 <= j <= 1 -> 0 <= s <= 1 -> s <> j ->
  tbl_get (tbl_set t i j v) i s = tbl_get t i s.
Proof.
  intros Hj Hs Hne. unfold tbl_get. rewrite tbl_set_length.
  destruct ((0 <=? i) && (i <? Z.of_nat (length t))) eqn:E; [|reflexivity].
  apply andb_prop in E. destruct E as [E1 E2].
  apply Z.leb_le in E1. apply Z.ltb_lt in E2.
  unfold tbl_set. destruct (Z.leb_spec 0 i); [|lia].
  rewrite nth_list_upd_same by lia.
  unfold row_slot, row_set.
  destruct (Z.eqb_spec j 0), (Z.eqb_spec s 0); try reflexivity; lia.
Qed.

Lemma POW2_MASK_land x n :
  0 <= n -> Z.land x (POW2_MASK n) = x mod 2 ^ n.
Proof.
  intros Hn. unfold POW2_MASK. rewrite Z.sub_1_r.
  change (Z.pred (Z.shiftl 1 n)) with (Z.ones n).
  apply Z.land_ones. exact Hn.
Qed.

(** What every randomized store writes: a value masked to the row's bit
    width. *)
Lemma masked_value_bounded x i :
  0 <= i -> 0 <= u32 (Z.land x (POW2_MASK (i + 1))) < 2 ^ (i + 1).
Proof.
  intros Hi. rewrite POW2_MASK_land by lia.
  assert (Hp : 0 < 2 ^ (i + 1)) by (apply Z.pow_pos_nonneg; lia).
  pose proof (Z.mod_pos_bound x (2 ^ (i + 1)) Hp) as Hb.
  pose proof (u32_range (x mod 2 ^ (i + 1))).
  pose proof (u32_le (x mod 2 ^ (i + 1)) ltac:(lia)). lia.
Qed.

Lemma u32_idem x : u32 (u32 x) = u32 x.
Proof. apply u32_small, u32_range. Qed.

(** A bounded store into cell [(i, j)] advances the progress to
    [(i, j + 1)]. *)
Lemma filled_upto_store t i j v :
  filled_upto t i j -> 3 <= i -> 0 <= j <= 1 -> 0 <= v < 2 ^ (i + 1) ->
  filled_upto (tbl_set t i j v) i (j + 1).
Proof.
  intros [Hlen Hok] Hi Hj Hv. split; [rewrite tbl_set_length; exact Hlen|].
  intros k s Hk Hs Hbefore. unfold cell_ok.
  destruct (Z.eq_dec k i) as [-> | Hne].
  - destruct (Z.eq_dec s j) as [-> | Hsj].
    + destruct (Z_lt_le_dec i 32) as [Hin | Hout].
      * rewrite tbl_get_set_same by lia. lia.
      * unfold tbl_get. rewrite tbl_set_length, Hlen.
        destruct (Z.ltb_spec i (Z.of_nat 32)); [lia|].
        rewrite andb_false_r.
        assert (0 < 2 ^ (i + 1)) by (apply Z.pow_pos_nonneg; lia). lia.
    + rewrite tbl_get_set_other_slot by lia. apply Hok; lia.
  - rewrite tbl_get_set_other_row by exact Hne. apply Hok; lia.
Qed.

Lemma filled_upto_next_row t i : filled_upto t i 2 -> filled_upto t (i + 1) 0.
Proof.
  intros [Hlen Hok]. split; [exact Hlen|].
  intros k s Hk Hs Hb. apply Hok; lia.
Qed.

Variable RAND_MAX : Z.
Variable random_seq : Z -> nat -> Z.

(** The first loop zeroes rows 0..2. *)
Lemma init_random_zero_spec (fuel : nat) :
  forall (i : Z) (st : init_state),
    3 - i < Z.of_nat fuel -> 0 <= i <= 3 ->
    length (st_random_pos st) = 32%nat ->
    (forall k s, 0 <= k < i -> 0 <= s <= 1 ->
       tbl_get (st_random_pos st) k s = 0) ->
    exists st',
      init_random_zero fuel i st = Some (3, st') /\
      length (st_random_pos st') = 32%nat /\
      (forall k s, 0 <= k < 3 -> 0 <= s <= 1 ->
         tbl_get (st_random_pos st') k s = 0).
Proof.
  induction fuel as [|fuel IH]; intros i st Hf Hi Hlen Hz; [lia|].
  cbn [init_random_zero].
  destruct (Z.ltb_spec i 3) as [Hlt | Hge].
  - apply IH; try lia.
    + cbn. rewrite !tbl_set_length. exact Hlen.
    + intros k s Hk Hs. cbn [store st_random_pos st_random_calls].
      change (u32 0) with 0.
      destruct (Z.eq_dec k i) as [-> | Hne].
      * destruct (Z.eq_dec s 0) as [-> | Hs0].
        -- apply tbl_get_set_same; [rewrite tbl_set_length, Hlen|]; lia.
        -- rewrite tbl_get_set_other_slot by lia.
           assert (s = 1) as -> by lia.
           apply tbl_get_set_same; [rewrite Hlen|]; lia.
      * rewrite !tbl_get_set_other_row by exact Hne. apply Hz; lia.
  - assert (i = 3) as -> by lia. exists st. auto.
Qed.

Lemma zero_rows_filled t :
  length t = 32%nat ->
  (forall k s, 0 <= k < 3 -> 0 <= s <= 1 -> tbl_get t k s = 0) ->
  filled_upto t 3 0.
Proof.
  intros Hlen Hz. split; [exact Hlen|].
  intros k s Hk Hs Hb. unfold cell_ok. rewrite Hz by lia.
  assert (0 < 2 ^ (k + 1)) by (apply Z.pow_pos_nonneg; lia). lia.
Qed.

(** The second loop fills rows [i .. rml-1] with masked draws. *)
Lemma init_random_masked_spec (seed rml : Z) (fuel : nat) :
  forall (i : Z) (st : init_state),
    Z.max 0 (rml - i) < Z.of_nat fuel -> 3 <= i ->
    filled_upto (st_random_pos st) i 0 ->
    exists st',
      init_random_masked random_seq fuel seed rml i st
        = Some (Z.max i rml, st') /\
      filled_upto (st_random_pos st') (Z.max i rml) 0.
Proof.
  induction fuel as [|fuel IH]; intros i st Hf Hi Hfill; [lia|].
  cbn [init_random_masked].
  {
    destruct (Z.ltb_spec i rml) as [Hlt | Hge].
    + unfold random. cbn [store st_random_pos st_random_calls].
      replace (Z.max i rml) with (Z.max (i + 1) rml) by lia.
      apply IH; [lia | lia |].
      cbn [st_random_pos]. apply filled_upto_next_row.
      apply (filled_upto_store _ i 1); [|lia|lia|apply masked_value_bounded; lia].
      apply (filled_upto_store _ i 0); [exact Hfill|lia|lia|].
      apply masked_value_bounded; lia.
    + replace (Z.max i rml) with i by lia. exists st. auto.
  }
Qed.

(** The inner loop of the third part fills slots [j .. 1] of row [i]. *)
Lemma init_random_scaled_row_spec (seed rml i : Z) (fuel : nat) :
  forall (j : Z) (st : init_state),
    2 - j < Z.of_nat fuel -> 0 <= j <= 2 -> 3 <= i ->
    filled_upto (st_random_pos st) i j ->
    exists st',
      init_random_scaled_row random_seq fuel seed rml i j st = Some st' /\
      filled_upto (st_random_pos st') i 2.
Proof.
  induction fuel as [|fuel IH]; intros j st Hf Hj Hi Hfill; [lia|].
  cbn [init_random_scaled_row].
  destruct (Z.ltb_spec j 2) as [Hlt | Hge].
  - unfold random. cbn [store st_random_pos st_random_calls].
    apply IH; [lia | lia | lia |].
    unfold store. cbn [st_random_pos st_random_calls]. rewrite u32_idem.
    apply filled_upto_store; [exact Hfill|lia|lia|].
    apply masked_value_bounded; lia.
  - assert (j = 2) as -> by lia. exists st. auto.
Qed.

(** The third loop fills rows [i .. 30] with scaled, masked draws. *)
Lemma init_random_scaled_spec (seed rml : Z) (fuel : nat) :
  forall (i : Z) (st : init_state),
    Z.max 0 (31 - i) + 2 < Z.of_nat fuel -> 3 <= i ->
    filled_upto (st_random_pos st) i 0 ->
    exists st',
      init_random_scaled random_seq fuel seed rml i st = Some st' /\
      filled_upto (st_random_pos st') (Z.max i 31) 0.
Proof.
  induction fuel as [|fuel IH]; intros i st Hf Hi Hfill; [lia|].
  cbn [init_random_scaled].
  destruct (Z.ltb_spec i 31) as [Hlt | Hge].
  - destruct (init_random_scaled_row_spec seed rml i (S fuel) 0 st)
      as (st1 & E1 & Hfill1); [lia | lia | lia | exact Hfill |].
    rewrite E1.
    replace (Z.max i 31) with (Z.max (i + 1) 31) by lia.
    apply IH; [lia | lia |].
    apply filled_upto_next_row. exact Hfill1.
  - replace (Z.max i 31) with i by lia. exists st. auto.
Qed.

Lemma log2_floor_as_int n :
  0 <= n < 2 ^ 32 -> -1 <= to_int (log2_floor n) <= 31.
Proof.
  intros Hn. destruct (Z.eq_dec n 0) as [-> | Hne].
  - vm_compute. split; discriminate.
  - destruct (log2_floor_sandwich n ltac:(lia)) as [Hb _].
    unfold to_int. rewrite u32_small by lia.
    destruct (Z.ltb_spec (log2_floor n) (2 ^ 31)); lia.
Qed.

(** The initialisation returns, and leaves every cell of rows 0..30 within
    its bit width, rows 0..2 at zero. *)
Lemma lj_str_hash_init_random_filled (fuel : nat) (pid time : Z) (t0 : table) :
  (32 <= fuel)%nat -> length t0 = 32%nat ->
  exists t,
    lj_str_hash_init_random RAND_MAX random_seq fuel pid time t0 = Some t /\
    filled_upto t 31 0.
Proof.
  intros Hf Hlen. unfold lj_str_hash_init_random.
  set (rml0 := to_int (log2_floor (u32 RAND_MAX))).
  set (rml := if Z.land RAND_MAX (RAND_MAX - 1) =? 0 then rml0 else rml0 + 1).
  set (seed := to_int (lj_crc32_u32 (to_int (lj_crc32_u32 0 pid)) time)).
  assert (Hrml : -1 <= rml <= 32).
  { pose proof (log2_floor_as_int (u32 RAND_MAX) (u32_range _)) as H.
    fold rml0 in H. subst rml.
    destruct (Z.land RAND_MAX (RAND_MAX - 1) =? 0); lia. }
  destruct (init_random_zero_spec fuel 0 (mk_init_state t0 0))
    as (st1 & E1 & Hlen1 & Hz1); [lia | lia | exact Hlen | intros; lia |].
  rewrite E1.
  destruct (init_random_masked_spec seed rml fuel 3 st1)
    as (st2 & E2 & Hfill2);
    [lia | lia | apply zero_rows_filled; assumption |].
  rewrite E2.
  destruct (init_random_scaled_spec seed rml fuel (Z.max 3 rml) st2)
    as (st3 & E3 & Hfill3); [lia | lia | exact Hfill2 |].
  rewrite E3. exists (st_random_pos st3). split; [reflexivity|].
  destruct Hfill3 as [Hlen3 Hok3]. split; [exact Hlen3|].
  intros k s Hk Hs Hb. apply Hok3; lia.
Qed.

(** C3: after [lj_str_hash_init_random] completes, for every random
    sequence and every [RAND_MAX], every cell of orders 0..30, both slots,
    satisfies [0 <= random_pos[order][slot] < 2^(order+1)], and the cells of
    orders below 3 are 0. *)
Theorem lj_str_hash_init_random_bounds (fuel : nat) (pid time : Z)
    (t0 : table) :
  (32 <= fuel)%nat -> length t0 = 32%nat ->
  exists t,
    lj_str_hash_init_random RAND_MAX random_seq fuel pid time t0 = Some t /\
    forall order slot, 0 <= order <= 30 -> 0 <= slot <= 1 ->
      0 <= tbl_get t order slot < 2 ^ (order + 1) /\
      (order < 3 -> tbl_get t order slot = 0).
Proof.
  intros Hf Hlen.
  destruct (lj_str_hash_init_random_filled fuel pid time t0 Hf Hlen)
    as (t & E & _ & Hok).
  exists t. split; [exact E|].
  intros order slot Ho Hs. apply Hok; lia.
Qed.

(** ** The sampled long-string routine *)

(** The chunk-pair loop runs its 7 iterations: from chunk pair [i] it reads
    at [pos1] in chunks [i .. 6] and at [pos2] in chunks [i+1 .. 7], and
    leaves [chunk_ptr] at the start of chunk 7. *)
Lemma lj_str_hash_128_above_loop_spec (str : memory) (cs p1 p2 : Z) :
  forall (fuel : nat) (i cp h1 h2 : Z),
    0 <= i <= 7 -> 7 - i < Z.of_nat fuel ->
    exists h1' h2' t,
      lj_str_hash_128_above_loop fuel str 16 cs p1 p2 i cp h1 h2
        = Some ((cp + (7 - i) * cs, h1', h2'), t) /\
      Z.of_nat (length t) = 2 * (7 - i) /\
      Forall (fun a => acc_width a = 8 /\
                exists n, 0 <= n < 7 - i /\
                  (acc_off a = cp + n * cs + p1 \/
                   acc_off a = cp + (n + 1) * cs + p2)) t.
Proof.
  induction fuel as [|fuel IH]; intros i cp h1 h2 Hi Hf; [lia|].
  cbn [lj_str_hash_128_above_loop].
  change (u32 (16 / 2 - 1)) with 7.
  destruct (Z.ltb_spec i 7) as [Hlt | Hge].
  - rewrite (u32_small (i + 1)) by lia.
    destruct (IH (i + 1) (cp + cs)
                (lj_crc32_u64 h1 (le_bytes str (cp + p1) 8))
                (lj_crc32_u64 h2 (le_bytes str (cp + cs + p2) 8)))
      as (h1' & h2' & t & E & Hn & Ht); [lia | lia |].
    cbn [bind cast_uint64p]. rewrite E. cbn [app].
    replace (cp + cs + (7 - (i + 1)) * cs) with (cp + (7 - i) * cs) by ring.
    do 3 eexists. split; [reflexivity|].
    split; [cbn [length]; lia|].
    constructor; [|constructor].
    + split; [reflexivity|]. exists 0. cbn [acc_off]. split; [lia|left; ring].
    + split; [reflexivity|]. exists 0. cbn [acc_off]. split; [lia|right; ring].
    + eapply Forall_impl; [|exact Ht].
      intros a (Hw & n & Hn' & Hoff). split; [exact Hw|].
      exists (n + 1). split; [lia|].
      destruct Hoff as [-> | ->]; [left | right]; ring.
  - assert (i = 7) as -> by lia.
    replace (cp + (7 - 7) * cs) with cp by ring.
    do 3 eexists. split; [reflexivity|]. split; [reflexivity|constructor].
Qed.

(** The routine in terms of its chunk-pair loop. *)
Lemma lj_str_hash_128_above_unfold fuel random_pos str len cp h1 h2 t :
  let cs := len / 16 in
  let p1 := tbl_get random_pos (log2_floor cs) 0 in
  let p2 := tbl_get random_pos (log2_floor cs) 1 in
  lj_str_hash_128_above_loop fuel str 16 cs p1 p2 0 0 (lj_crc32_u32 0 len) 0
    = Some ((cp, h1, h2), t) ->
  lj_str_hash_128_above fuel random_pos str len =
    Some (u32 (lj_crc32_u32
                 (lj_crc32_u64
                    (lj_crc32_u64 h1 (le_bytes str (cp + p1) 8))
                    (le_bytes str 0 8))
                 (lj_crc32_u64
                    (lj_crc32_u64 h2 (le_bytes str (cp + cs - 8 - p2) 8))
                    (le_bytes str (len - 8) 8))),
          t ++ [mk_access (cp + p1) 8; mk_access (cp + cs - 8 - p2) 8;
                mk_access 0 8; mk_access (len - 8) 8]).
Proof.
  intros cs p1 p2 E. unfold lj_str_hash_128_above, get_random_pos_unsafe.
  change (Z.land 0 1) with 0. change (Z.land 1 1) with 1.
  fold cs. fold p1. fold p2. rewrite E. reflexivity.
Qed.

(** With both offsets of the chunk-size order below [2^(order+1)], every
    read of the routine lies inside the buffer. *)
Lemma lj_str_hash_128_above_safe fuel random_pos str len :
  (8 <= fuel)%nat -> 128 <= len < 2 ^ 32 ->
  (forall slot, 0 <= slot <= 1 ->
     0 <= tbl_get random_pos (log2_floor (len / 16)) slot
       < 2 ^ (log2_floor (len / 16) + 1)) ->
  exists h t,
    lj_str_hash_128_above fuel random_pos str len = Some (h, t) /\
    length t = 18%nat /\
    Forall (fun a => acc_width a = 8 /\ in_buffer len a) t.
Proof.
  intros Hf Hlen Hpos.
  set (cs := len / 16) in *.
  assert (Hcs : 8 <= cs < 2 ^ 28 /\ 16 * cs <= len).
  { subst cs. pose proof (Z.mul_div_le len 16 ltac:(lia)).
    split; [split|lia].
    - apply Z.div_le_lower_bound; lia.
    - apply Z.div_lt_upper_bound; lia. }
  destruct Hcs as [Hcs Hmul].
  destruct (log2_floor_sandwich cs ltac:(lia)) as [Ho [Hlo _]].
  set (o := log2_floor cs) in *.
  assert (Hpow : 2 ^ (o + 1) <= 2 * cs).
  { rewrite Z.pow_add_r by lia. change (2 ^ 1) with 2. lia. }
  pose proof (Hpos 0 ltac:(lia)) as Hp1.
  pose proof (Hpos 1 ltac:(lia)) as Hp2.
  set (p1 := tbl_get random_pos o 0) in *.
  set (p2 := tbl_get random_pos o 1) in *.
  destruct (lj_str_hash_128_above_loop_spec str cs p1 p2 fuel 0 0
              (lj_crc32_u32 0 len) 0) as (h1 & h2 & t & E & Hcount & Ht);
    [lia | lia |].
  rewrite (lj_str_hash_128_above_unfold _ _ _ _ _ _ _ _ E).
  do 2 eexists. split; [reflexivity|].
  split; [rewrite length_app; cbn [length]; lia|].
  apply Forall_app. split.
  - eapply Forall_impl; [|exact Ht].
    intros a (Hw & n & Hn & Hoff). split; [exact Hw|].
    unfold in_buffer. rewrite Hw.
    destruct Hoff as [-> | ->]; nia.
  - subst p1 p2 o cs. unfold in_buffer.
    repeat (apply Forall_cons;
            [split; [reflexivity|split; cbn [acc_off acc_width]; nia]|]).
    apply Forall_nil.
Qed.

(** C1: for every buffer of length [len >= 128] and every table produced by
    [lj_str_hash_init_random] (any random sequence, any [RAND_MAX]),
    [lj_str_hash_128_above] returns and every one of its 18 reads (7 chunk
    pairs, the last chunk pair, the head and tail folds) is an 8-byte word
    lying entirely inside the buffer: it starts at an offset [>= 0] and
    ends no later than byte [len - 1]. *)
Theorem lj_str_hash_128_above_in_buffer (fuel : nat) (pid time : Z)
    (t0 : table) (str : memory) (len : Z) :
  (32 <= fuel)%nat -> length t0 = 32%nat -> 128 <= len < 2 ^ 32 ->
  exists random_pos h t,
    lj_str_hash_init_random RAND_MAX random_seq fuel pid time t0
      = Some random_pos /\
    lj_str_hash_128_above fuel random_pos str len = Some (h, t) /\
    length t = 18%nat /\
    Forall (fun a => acc_width a = 8 /\ in_buffer len a) t.
Proof.
  intros Hf Hlen0 Hlen.
  destruct (lj_str_hash_init_random_filled fuel pid time t0 Hf Hlen0)
    as (tbl & E & _ & Hok).
  assert (Hcs : 1 <= len / 16 < 2 ^ 28).
  { split; [apply Z.div_le_lower_bound; lia|apply Z.div_lt_upper_bound; lia]. }
  destruct (log2_floor_sandwich (len / 16) ltac:(lia)) as [Ho [Hlo Hhi]].
  assert (Ho27 : log2_floor (len / 16) < 28).
  { apply (Z.pow_lt_mono_r_iff 2); lia. }
  destruct (lj_str_hash_128_above_safe fuel tbl str len)
    as (h & t & Eh & Hn & Ht); [lia | exact Hlen | | ].
  - intros slot Hs. apply Hok; lia.
  - exists tbl, h, t. auto.
Qed.

(** ** Reads decide the hash *)

Lemma le_bytes_S m off n :
  le_bytes m off (S n) = u8 (m off) + 2 ^ 8 * le_bytes m (off + 1) n.
Proof. reflexivity. Qed.

Lemma le_bytes_agree m1 m2 n :
  forall off,
    (forall k, off <= k < off + Z.of_nat n -> m1 k = m2 k) ->
    le_bytes m1 off n = le_bytes m2 off n.
Proof.
  induction n as [|n IH]; intros off H; [reflexivity|].
  rewrite !le_bytes_S. rewrite (H off) by lia.
  rewrite (IH (off + 1)); [reflexivity|]. intros k Hk. apply H. lia.
Qed.

Lemma agree_on_word m1 m2 off t :
  agree_on (mk_access off 8 :: t) m1 m2 ->
  le_bytes m1 off 8 = le_bytes m2 off 8 /\ agree_on t m1 m2.
Proof.
  intros H. split.
  - apply le_bytes_agree. intros k Hk.
    apply (H (mk_access off 8) k); [left; reflexivity|].
    unfold covers. cbn [acc_off acc_width]. lia.
  - intros a k Hin Hc. apply (H a k); [right; exact Hin|exact Hc].
Qed.

Lemma agree_on_app t1 t2 m1 m2 :
  agree_on (t1 ++ t2) m1 m2 <-> agree_on t1 m1 m2 /\ agree_on t2 m1 m2.
Proof.
  unfold agree_on. split.
  - intros H. split; intros a k Hin Hc; apply (H a k); auto using in_or_app.
  - intros [H1 H2] a k Hin Hc. apply in_app_or in Hin.
    destruct Hin; [apply (H1 a k)|apply (H2 a k)]; auto.
Qed.

(** The chunk-pair loop on two memories that agree on its reads. *)
Lemma lj_str_hash_128_above_loop_agree (m1 m2 : memory) (cn cs p1 p2 : Z) :
  forall (fuel : nat) (i cp h1 h2 : Z) r t,
    lj_str_hash_128_above_loop fuel m1 cn cs p1 p2 i cp h1 h2 = Some (r, t) ->
    agree_on t m1 m2 ->
    lj_str_hash_128_above_loop fuel m2 cn cs p1 p2 i cp h1 h2 = Some (r, t).
Proof.
  induction fuel as [|fuel IH]; intros i cp h1 h2 r t E Hag; [discriminate|].
  cbn [lj_str_hash_128_above_loop] in *.
  destruct (i <? u32 (cn / 2 - 1)); [|exact E].
  cbn [bind cast_uint64p] in *.
  destruct (lj_str_hash_128_above_loop fuel m1 cn cs p1 p2 (u32 (i + 1))
              (cp + cs) _ _) as [[r' t']|] eqn:E'; [|discriminate].
  inversion E; subst r t. cbn [app] in Hag.
  apply agree_on_word in Hag. destruct Hag as [W1 Hag].
  apply agree_on_word in Hag. destruct Hag as [W2 Hag].
  rewrite <- W1, <- W2. rewrite (IH _ _ _ _ _ _ E' Hag). reflexivity.
Qed.

(** C6: for a fixed table, for every length [L >= 128] and two buffers of
    length [L] that agree on the first 16 bytes, on the last 16 bytes and
    on every byte covered by the sampled 8-byte reads the routine performs
    for that table and length, [lj_str_hash_128_above] returns the same
    hash (and performs the same reads) on both. *)
Theorem lj_str_hash_128_above_sampled (fuel : nat) (random_pos : table)
    (m1 m2 : memory) (L : Z) :
  (8 <= fuel)%nat -> 128 <= L ->
  (forall k, 0 <= k < 16 -> m1 k = m2 k) ->
  (forall k, L - 16 <= k < L -> m1 k = m2 k) ->
  agree_on
    (sampled_reads (reads (lj_str_hash_128_above fuel random_pos m1 L)))
    m1 m2 ->
  exists h t,
    lj_str_hash_128_above fuel random_pos m1 L = Some (h, t) /\
    lj_str_hash_128_above fuel random_pos m2 L = Some (h, t).
Proof.
  intros Hf HL Hhead Htail Hs.
  set (cs := L / 16) in *.
  set (p1 := tbl_get random_pos (log2_floor cs) 0).
  set (p2 := tbl_get random_pos (log2_floor cs) 1).
  destruct (lj_str_hash_128_above_loop_spec m1 cs p1 p2 fuel 0 0
              (lj_crc32_u32 0 L) 0) as (h1 & h2 & t & E & _ & _); [lia | lia |].
  pose proof (lj_str_hash_128_above_unfold fuel random_pos m1 L _ _ _ _ E) as E1.
  cbv zeta in E1. fold cs p1 p2 in E1.
  rewrite E1 in Hs. cbn [reads] in Hs. unfold sampled_reads in Hs.
  replace (t ++ [mk_access (0 + (7 - 0) * cs + p1) 8;
                 mk_access (0 + (7 - 0) * cs + cs - 8 - p2) 8;
                 mk_access 0 8; mk_access (L - 8) 8])
    with ((t ++ [mk_access (0 + (7 - 0) * cs + p1) 8;
                 mk_access (0 + (7 - 0) * cs + cs - 8 - p2) 8;
                 mk_access 0 8]) ++ [mk_access (L - 8) 8]) in Hs
    by (rewrite <- app_assoc; reflexivity).
  rewrite removelast_last in Hs.
  replace (t ++ [mk_access (0 + (7 - 0) * cs + p1) 8;
                 mk_access (0 + (7 - 0) * cs + cs - 8 - p2) 8;
                 mk_access 0 8])
    with ((t ++ [mk_access (0 + (7 - 0) * cs + p1) 8;
                 mk_access (0 + (7 - 0) * cs + cs - 8 - p2) 8])
            ++ [mk_access 0 8]) in Hs
    by (rewrite <- app_assoc; reflexivity).
  rewrite removelast_last in Hs.
  apply agree_on_app in Hs. destruct Hs as [Hloop Hlast].
  apply agree_on_word in Hlast. destruct Hlast as [W1 Hlast].
  apply agree_on_word in Hlast. destruct Hlast as [W2 _].
  assert (W3 : le_bytes m1 0 8 = le_bytes m2 0 8).
  { apply le_bytes_agree. intros k Hk. apply Hhead. lia. }
  assert (W4 : le_bytes m1 (L - 8) 8 = le_bytes m2 (L - 8) 8).
  { apply le_bytes_agree. intros k Hk. apply Htail. lia. }
  pose proof (lj_str_hash_128_above_loop_agree m1 m2 16 cs p1 p2 fuel _ _ _ _
                _ _ E Hloop) as E'.
  pose proof (lj_str_hash_128_above_unfold fuel random_pos m2 L _ _ _ _ E') as E2.
  cbv zeta in E2. fold cs p1 p2 in E2.
  rewrite E1, E2. rewrite <- W1, <- W2, <- W3, <- W4.
  do 2 eexists. split; reflexivity.
Qed.

(** ** The selector *)

Lemma lj_init_strhashfn_selected fuel env s g s' g' fn :
  strhashfn s = Some fn ->
  lj_init_strhashfn RAND_MAX random_seq fuel env s g = Some (s', g') ->
  s' = s /\ g_strhashfn g' = Some fn.
Proof.
  intros Hsel E. unfold lj_init_strhashfn in E. rewrite Hsel in E.
  inversion E; subst. cbn. auto.
Qed.

Lemma lj_init_strhashfn_first fuel env s g s' g' :
  strhashfn s = None ->
  lj_init_strhashfn RAND_MAX random_seq fuel env s g = Some (s', g') ->
  exists fn,
    strhashfn s' = Some fn /\ g_strhashfn g' = Some fn /\
    (fn = FN_lj_str_hash_crc32 /\
       init_random_runs s' = S (init_random_runs s) \/
     fn = FN_lj_str_hash_orig /\
       init_random_runs s' = init_random_runs s /\
       random_pos s' = random_pos s).
Proof.
  intros Hsel E. unfold lj_init_strhashfn in E. rewrite Hsel in E.
  destruct (lj_check_crc32_support (env_hw env)).
  - destruct (lj_str_hash_init_random RAND_MAX random_seq fuel (env_pid env)
                (env_time env) (random_pos s)) as [t|]; [|discriminate].
    inversion E; subst. exists FN_lj_str_hash_crc32. cbn. auto.
  - inversion E; subst. exists FN_lj_str_hash_orig. cbn. auto 6.
Qed.

(** Once a function is selected, calls change nothing and publish it. *)
Lemma init_calls_selected fuel s gs s' fn :
  init_calls RAND_MAX random_seq fuel s gs s' ->
  strhashfn s = Some fn ->
  s' = s /\ Forall (fun g => g_strhashfn g = Some fn) gs.
Proof.
  intros H. induction H as [s | env g s s1 g1 gs s2 E _ IH]; intros Hsel.
  - split; [reflexivity|constructor].
  - destruct (lj_init_strhashfn_selected _ _ _ _ _ _ _ Hsel E) as [-> Hg].
    destruct (IH Hsel) as [-> Hgs].
    split; [reflexivity|constructor; assumption].
Qed.

(** With enough fuel and the 32-row table, a call of [lj_init_strhashfn]
    returns. *)
Lemma lj_init_strhashfn_returns fuel env s g :
  (32 <= fuel)%nat -> length (random_pos s) = 32%nat ->
  exists s' g',
    lj_init_strhashfn RAND_MAX random_seq fuel env s g = Some (s', g').
Proof.
  intros Hf Hlen. unfold lj_init_strhashfn.
  destruct (strhashfn s); [do 2 eexists; reflexivity|].
  destruct (lj_check_crc32_support (env_hw env));
    [|do 2 eexists; reflexivity].
  destruct (lj_str_hash_init_random_filled fuel (env_pid env) (env_time env)
              (random_pos s) Hf Hlen) as (t & E & _).
  rewrite E. do 2 eexists. reflexivity.
Qed.

(** Once a function is selected, every call returns at once, changes
    nothing and publishes it, whatever its environment and fuel. *)
Lemma lj_init_strhashfn_again fuel env s g fn :
  strhashfn s = Some fn ->
  lj_init_strhashfn RAND_MAX random_seq fuel env s g
    = Some (s, mk_global_State (Some fn)).
Proof.
  intros Hsel. unfold lj_init_strhashfn. rewrite Hsel.
  cbv beta iota zeta. rewrite Hsel. reflexivity.
Qed.

Lemma init_calls_on_again fuel s fn calls :
  strhashfn s = Some fn ->
  init_calls_on RAND_MAX random_seq fuel s calls
    (repeat (mk_global_State (Some fn)) (length calls)) s.
Proof.
  intros Hsel. induction calls as [|[env g] calls IH]; cbn [length repeat].
  - constructor.
  - econstructor; [apply lj_init_strhashfn_again; exact Hsel|exact IH].
Qed.

Lemma init_calls_on_functional fuel s calls gs1 s1 :
  init_calls_on RAND_MAX random_seq fuel s calls gs1 s1 ->
  forall gs2 s2,
    init_calls_on RAND_MAX random_seq fuel s calls gs2 s2 ->
    gs2 = gs1 /\ s2 = s1.
Proof.
  intros H. induction H as [s | env g s sa ga calls gs1 s1 E _ IH];
    intros gs2 s2 H2.
  - inversion H2; subst. auto.
  - inversion H2 as [| env' g' s' sb gb calls' gs2' s2' E' Hrest]; subst.
    rewrite E in E'. inversion E'; subst sb gb.
    destruct (IH _ _ Hrest) as [-> ->]. auto.
Qed.

(** C9: in any sequence of calls of [lj_init_strhashfn] that starts with
    the selection unset (enough fuel, the 32-row table): every call
    returns; the first call sets the selection, to [lj_str_hash_crc32] when
    its probe succeeds and to [lj_str_hash_orig] otherwise; every
    subsequent call, whatever its environment, observes that value, leaves
    the statics as the first call left them (selection and table
    unchanged, [lj_str_hash_init_random] not run again: at most one run in
    all) and publishes that same function to [g->strhashfn]; and the
    sequence has no other run. *)
Theorem lj_init_strhashfn_once (fuel : nat) (s0 : statics)
    (c : call_env * global_State) (calls : list (call_env * global_State)) :
  (32 <= fuel)%nat -> strhashfn s0 = None ->
  length (random_pos s0) = 32%nat ->
  exists fn s,
    fn = (if lj_check_crc32_support (env_hw (fst c))
          then FN_lj_str_hash_crc32 else FN_lj_str_hash_orig) /\
    lj_init_strhashfn RAND_MAX random_seq fuel (fst c) s0 (snd c)
      = Some (s, mk_global_State (Some fn)) /\
    strhashfn s = Some fn /\
    (forall env g,
       lj_init_strhashfn RAND_MAX random_seq fuel env s g
         = Some (s, mk_global_State (Some fn))) /\
    init_calls_on RAND_MAX random_seq fuel s0 (c :: calls)
      (repeat (mk_global_State (Some fn)) (S (length calls))) s /\
    (forall gs' s',
       init_calls_on RAND_MAX random_seq fuel s0 (c :: calls) gs' s' ->
       gs' = repeat (mk_global_State (Some fn)) (S (length calls)) /\
       s' = s) /\
    (init_random_runs s <= S (init_random_runs s0))%nat /\
    (fn = FN_lj_str_hash_crc32 ->
     init_random_runs s = S (init_random_runs s0)) /\
    (fn = FN_lj_str_hash_orig ->
     init_random_runs s = init_random_runs s0 /\
     random_pos s = random_pos s0).
Proof.
  intros Hf Hunset Hlen. destruct c as [env g]. cbn [fst snd].
  destruct (lj_init_strhashfn_returns fuel env s0 g Hf Hlen) as (s & g' & E).
  assert (Hfirst :
    exists fn,
      fn = (if lj_check_crc32_support (env_hw env)
            then FN_lj_str_hash_crc32 else FN_lj_str_hash_orig) /\
      g' = mk_global_State (Some fn) /\ strhashfn s = Some fn /\
      (fn = FN_lj_str_hash_crc32 ->
       init_random_runs s = S (init_random_runs s0)) /\
      (fn = FN_lj_str_hash_orig ->
       init_random_runs s = init_random_runs s0 /\
       random_pos s = random_pos s0)).
  { unfold lj_init_strhashfn in E. rewrite Hunset in E.
    destruct (lj_check_crc32_support (env_hw env)).
    - destruct (lj_str_hash_init_random RAND_MAX random_seq fuel
                  (env_pid env) (env_time env) (random_pos s0)) as [t|];
        [|discriminate].
      inversion E; subst s g'. exists FN_lj_str_hash_crc32. cbn.
      repeat split; try reflexivity; discriminate.
    - inversion E; subst s g'. exists FN_lj_str_hash_orig. cbn.
      repeat split; try reflexivity; discriminate. }
  destruct Hfirst as (fn & Hfn & -> & Hsel & Hcrc & Horig).
  assert (Hrun : init_calls_on RAND_MAX random_seq fuel s0
                   ((env, g) :: calls)
                   (repeat (mk_global_State (Some fn)) (S (length calls))) s).
  { cbn [repeat]. econstructor; [exact E|].
    apply init_calls_on_again. exact Hsel. }
  exists fn, s.
  split; [exact Hfn|]. split; [exact E|]. split; [exact Hsel|].
  split; [intros env' g0; apply lj_init_strhashfn_again; exact Hsel|].
  split; [exact Hrun|].
  split; [intros gs' s' H'; exact (init_calls_on_functional _ _ _ _ _ Hrun
                                     _ _ H')|].
  destruct fn.
  - rewrite (Hcrc eq_refl). split; [lia|]. split; [reflexivity|discriminate].
  - destruct (Horig eq_refl) as [Hr Ht]. rewrite Hr.
    split; [lia|]. split; [discriminate|auto].
Qed.

(** * Further properties *)

(** ** Memory safety and read budget of the dispatcher *)

Lemma lj_str_hash_16_128_loop_count (str : memory) (len : Z) :
  16 <= len < 2 ^ 32 ->
  forall (fuel : nat) (i h1 h2 : Z) r t,
    0 <= i ->
    lj_str_hash_16_128_loop fuel str len i h1 h2 = Some (r, t) ->
    exists n,
      Z.of_nat (length t) = 2 * n /\
      0 <= 16 * n <= Z.max 0 (len - 16 - i + 15).
Proof.
  intros Hlen. induction fuel as [|fuel IH]; intros i h1 h2 r t Hi E;
    [discriminate|].
  cbn [lj_str_hash_16_128_loop] in E.
  rewrite (u32_small (len - 16)) in E by lia.
  destruct (Z.ltb_spec i (len - 16)) as [Hlt | Hge].
  - rewrite (u32_small (i + 16)) in E by lia.
    cbn [bind cast_uint64p] in E.
    destruct (lj_str_hash_16_128_loop fuel str len (i + 16) _ _)
      as [[r' t']|] eqn:E'; [|discriminate].
    inversion E; subst r t. apply IH in E'; [|lia].
    destruct E' as (n & Hn & Hb). exists (n + 1).
    cbn [app length]. lia.
  - inversion E; subst r t. exists 0. cbn [length]. lia.
Qed.

Lemma lj_str_hash_16_128_loop_widths (str : memory) (len : Z) :
  forall (fuel : nat) (i h1 h2 : Z) r t,
    lj_str_hash_16_128_loop fuel str len i h1 h2 = Some (r, t) ->
    Forall (fun a => acc_width a = 8) t.
Proof.
  induction fuel as [|fuel IH]; intros i h1 h2 r t E; [discriminate|].
  cbn [lj_str_hash_16_128_loop] in E.
  destruct (i <? u32 (len - 16)).
  - cbn [bind cast_uint64p] in E.
    destruct (lj_str_hash_16_128_loop fuel str len _ _ _)
      as [[r' t']|] eqn:E'; [|discriminate].
    inversion E; subst r t. cbn [app].
    repeat (apply Forall_cons; [reflexivity|]). eapply IH; exact E'.
  - inversion E; subst r t. constructor.
Qed.

Lemma Forall_in_buffer_le L L' t :
  L <= L' -> Forall (in_buffer L) t -> Forall (in_buffer L') t.
Proof.
  intros HL H. eapply Forall_impl; [|exact H].
  intros a [H0 H1]. unfold in_buffer. lia.
Qed.

(** Below 128 bytes the dispatcher needs no table: it returns, stays inside
    the buffer and reads at most 16 words. *)
Lemma lj_str_hash_crc32_short_safe fuel random_pos str L :
  (8 <= fuel)%nat -> 1 <= L <= 127 ->
  exists h t,
    lj_str_hash_crc32 fuel random_pos str L = Some (h, t) /\
    Forall (in_buffer L) t /\ (length t <= 16)%nat.
Proof.
  clear RAND_MAX random_seq.
  intros Hf HL. unfold lj_str_hash_crc32.
  rewrite (u32_small L) by lia.
  destruct (Z.ltb_spec L 128) as [_ | ?]; [|lia].
  destruct (Z.leb_spec 16 L) as [H16 | H16].
  - destruct (lj_str_hash_16_128_total fuel str L Hf ltac:(lia))
      as (h1 & h2 & t & E & Hin & _).
    pose proof (lj_str_hash_16_128_loop_count str L ltac:(lia) fuel 0 _ _ _ _
                  (Z.le_refl 0) E) as (n & Hn & Hc).
    rewrite (lj_str_hash_16_128_unfold _ _ _ _ _ _ E).
    do 2 eexists. split; [reflexivity|]. split.
    + apply Forall_app. split; [exact Hin|].
      repeat (apply Forall_cons; [unfold in_buffer; cbn [acc_off acc_width]; lia|]).
      apply Forall_nil.
    + rewrite length_app. cbn [length]. lia.
  - destruct (Z.leb_spec 4 L) as [H4 | H4].
    + destruct (lj_str_hash_4_16_reads str L) as (h & E). rewrite E.
      do 2 eexists. split; [reflexivity|].
      destruct (Z.leb_spec 8 L); (split; [|cbn [length]; lia]);
        repeat (apply Forall_cons; [unfold in_buffer; cbn [acc_off acc_width]; lia|]);
        apply Forall_nil.
    + destruct (lj_str_hash_1_4_reads str L) as (h & E). rewrite E.
      do 2 eexists. split; [reflexivity|]. split; [|cbn [length]; lia].
      assert (Hs : 0 <= Z.shiftr L 1 < L).
      { rewrite Z.shiftr_div_pow2 by lia. change (2 ^ 1) with 2.
        Z.div_mod_to_equations. lia. }
      repeat (apply Forall_cons; [unfold in_buffer; cbn [acc_off acc_width]; lia|]).
      apply Forall_nil.
Qed.

(** X1: with a table whose offsets are below [2^(order+1)], the dispatcher
    returns for every length [1 <= L < 2^32], every read lies inside the
    buffer, and it reads at most 18 words of at most 8 bytes, whatever the
    length. *)
Theorem lj_str_hash_crc32_safe (fuel : nat) (random_pos : table)
    (str : memory) (L : Z) :
  (8 <= fuel)%nat -> table_bounded random_pos -> 1 <= L < 2 ^ 32 ->
  exists h t,
    lj_str_hash_crc32 fuel random_pos str L = Some (h, t) /\
    Forall (in_buffer L) t /\
    Forall (fun a => 1 <= acc_width a <= 8) t /\
    (length t <= 18)%nat.
Proof.
  intros Hf Ht HL.
  destruct (Z_lt_le_dec L 128) as [Hs | Hl].
  - destruct (lj_str_hash_crc32_short_safe fuel random_pos str L Hf ltac:(lia))
      as (h & t & E & Hin & Hn).
    exists h, t. split; [exact E|]. split; [exact Hin|]. split; [|lia].
    revert E. unfold lj_str_hash_crc32. rewrite (u32_small L) by lia.
    destruct (Z.ltb_spec L 128) as [_ | ?]; [|lia].
    destruct (Z.leb_spec 16 L) as [H16 | H16].
    + destruct (lj_str_hash_16_128_total fuel str L Hf ltac:(lia))
        as (h1 & h2 & t' & E' & _ & _).
      rewrite (lj_str_hash_16_128_unfold _ _ _ _ _ _ E').
      intros E. inversion E; subst h t.
      apply Forall_app. split.
      * eapply Forall_impl;
          [|exact (lj_str_hash_16_128_loop_widths _ _ _ _ _ _ _ _ E')].
        intros a Ha. cbv beta in *. lia.
      * repeat (apply Forall_cons; [cbn [acc_off acc_width]; lia|]).
        apply Forall_nil.
    + destruct (Z.leb_spec 4 L) as [H4 | H4].
      * destruct (lj_str_hash_4_16_reads str L) as (h' & E'). rewrite E'.
        intros E. inversion E; subst h t.
        destruct (8 <=? L); repeat (apply Forall_cons; [cbn [acc_off acc_width]; lia|]);
          apply Forall_nil.
      * destruct (lj_str_hash_1_4_reads str L) as (h' & E'). rewrite E'.
        intros E. inversion E; subst h t.
        repeat (apply Forall_cons; [cbn [acc_off acc_width]; lia|]). apply Forall_nil.
  - unfold lj_str_hash_crc32. rewrite (u32_small L) by lia.
    destruct (Z.ltb_spec L 128) as [? | _]; [lia|].
    assert (Hcs : 1 <= L / 16 < 2 ^ 28).
    { split; [apply Z.div_le_lower_bound; lia|apply Z.div_lt_upper_bound; lia]. }
    destruct (log2_floor_sandwich (L / 16) ltac:(lia)) as [Ho [Hlo Hhi]].
    assert (Ho27 : log2_floor (L / 16) < 28).
    { apply (Z.pow_lt_mono_r_iff 2); lia. }
    destruct (lj_str_hash_128_above_safe fuel random_pos str L)
      as (h & t & E & Hn & Hin); [lia | lia | | ].
    + intros slot Hslot. apply Ht; lia.
    + exists h, t. split; [exact E|].
      split; [eapply Forall_impl; [|exact Hin]; intros a [_ Ha]; exact Ha|].
      split; [eapply Forall_impl; [|exact Hin]; intros a [Ha _]; lia|lia].
Qed.

(** ** Results are decided by the bytes read *)

Lemma agree_on_cons m1 m2 off w n t :
  w = Z.of_nat n ->
  agree_on (mk_access off w :: t) m1 m2 ->
  le_bytes m1 off n = le_bytes m2 off n /\ agree_on t m1 m2.
Proof.
  intros -> H. split.
  - apply le_bytes_agree. intros k Hk.
    apply (H (mk_access off (Z.of_nat n)) k); [left; reflexivity|].
    unfold covers. cbn [acc_off acc_width]. lia.
  - intros a k Hin Hc. apply (H a k); [right; exact Hin|exact Hc].
Qed.

Lemma reads_decide_ret {A} (a : A) : reads_decide (fun _ => ret a).
Proof. intros m1 m2 r t E _. exact E. Qed.

Lemma reads_decide_bind {A B} (c : memory -> M A) (f : A -> memory -> M B) :
  reads_decide c -> (forall a, reads_decide (f a)) ->
  reads_decide (fun m => bind (c m) (fun a => f a m)).
Proof.
  intros Hc Hf m1 m2 r t E Hag.
  apply bind_Some in E. destruct E as (a & t1 & t2 & E1 & E2 & ->).
  apply agree_on_app in Hag. destruct Hag as [H1 H2].
  apply bind_Some. exists a, t1, t2.
  split; [exact (Hc _ _ _ _ E1 H1)|].
  split; [exact (Hf a _ _ _ _ E2 H2)|reflexivity].
Qed.

Lemma reads_decide_load_u8 off : reads_decide (fun m => load_u8 m off).
Proof.
  intros m1 m2 r t E Hag. unfold load_u8 in *. inversion E; subst r t.
  apply (agree_on_cons _ _ _ _ 1%nat) in Hag; [|reflexivity].
  destruct Hag as [<- _]. reflexivity.
Qed.

Lemma reads_decide_cast_uint32p off :
  reads_decide (fun m => cast_uint32p m off).
Proof.
  intros m1 m2 r t E Hag. unfold cast_uint32p in *. inversion E; subst r t.
  apply (agree_on_cons _ _ _ _ 4%nat) in Hag; [|reflexivity].
  destruct Hag as [<- _]. reflexivity.
Qed.

Lemma reads_decide_cast_uint64p off :
  reads_decide (fun m => cast_uint64p m off).
Proof.
  intros m1 m2 r t E Hag. unfold cast_uint64p in *. inversion E; subst r t.
  apply (agree_on_cons _ _ _ _ 8%nat) in Hag; [|reflexivity].
  destruct Hag as [<- _]. reflexivity.
Qed.

Ltac decide_by_reads :=
  repeat lazymatch goal with
  | |- reads_decide (fun _ => ret _) => apply reads_decide_ret
  | |- reads_decide (fun m => load_u8 m _) => apply reads_decide_load_u8
  | |- reads_decide (fun m => cast_uint32p m _) =>
      apply reads_decide_cast_uint32p
  | |- reads_decide (fun m => cast_uint64p m _) =>
      apply reads_decide_cast_uint64p
  | |- reads_decide (fun m => bind (load_u8 m ?o) (@?k m)) =>
      refine (reads_decide_bind (fun m => load_u8 m o) (fun a m => k m a)
                (reads_decide_load_u8 o) _);
      intros ?; cbv beta
  | |- reads_decide (fun m => bind (cast_uint32p m ?o) (@?k m)) =>
      refine (reads_decide_bind (fun m => cast_uint32p m o)
                (fun a m => k m a) (reads_decide_cast_uint32p o) _);
      intros ?; cbv beta
  | |- reads_decide (fun m => bind (cast_uint64p m ?o) (@?k m)) =>
      refine (reads_decide_bind (fun m => cast_uint64p m o)
                (fun a m => k m a) (reads_decide_cast_uint64p o) _);
      intros ?; cbv beta
  end.

Lemma lj_str_hash_1_4_decided len :
  reads_decide (fun m => lj_str_hash_1_4 m len).
Proof. unfold lj_str_hash_1_4. cbv zeta. decide_by_reads. Qed.

Lemma lj_str_hash_4_16_decided len :
  reads_decide (fun m => lj_str_hash_4_16 m len).
Proof.
  unfold lj_str_hash_4_16.
  destruct (8 <=? len);
    (apply (reads_decide_bind
              (fun m => bind (_ m _) (fun v1 => bind (_ m _) (fun v2 => ret (v1, v2))))
              (fun x _ => let '(v1, v2) := x in ret _));
     [decide_by_reads | intros [v1 v2]; apply reads_decide_ret]).
Qed.

Lemma lj_str_hash_16_128_loop_decided len :
  forall fuel i h1 h2,
    reads_decide (fun m => lj_str_hash_16_128_loop fuel m len i h1 h2).
Proof.
  induction fuel as [|fuel IH]; intros i h1 h2.
  - intros m1 m2 r t E. discriminate E.
  - cbn [lj_str_hash_16_128_loop]. cbv zeta.
    destruct (i <? u32 (len - 16)); [|apply reads_decide_ret].
    apply (reads_decide_bind (fun m => cast_uint64p m _)
             (fun w1 m => bind (cast_uint64p m _) (fun w2 => _)));
      [apply reads_decide_cast_uint64p | intros w1].
    apply (reads_decide_bind (fun m => cast_uint64p m _)
             (fun w2 m => lj_str_hash_16_128_loop fuel m len _ _ _));
      [apply reads_decide_cast_uint64p | intros w2].
    apply IH.
Qed.

Lemma lj_str_hash_16_128_decided fuel len :
  reads_decide (fun m => lj_str_hash_16_128 fuel m len).
Proof.
  unfold lj_str_hash_16_128.
  apply (reads_decide_bind (fun m => lj_str_hash_16_128_accs fuel m len)
           (fun x _ => let '(h1, h2) := x in ret _));
    [|intros [h1 h2]; apply reads_decide_ret].
  unfold lj_str_hash_16_128_accs. cbv zeta.
  apply (reads_decide_bind
           (fun m => lj_str_hash_16_128_loop fuel m len 0 _ _)
           (fun x m => let '(h1, h2) := x in
                       bind (cast_uint64p m _) (fun w1 => _)));
    [apply lj_str_hash_16_128_loop_decided | intros [h1 h2]].
  decide_by_reads.
Qed.

Lemma lj_str_hash_128_above_decided fuel random_pos len :
  reads_decide (fun m => lj_str_hash_128_above fuel random_pos m len).
Proof.
  unfold lj_str_hash_128_above. cbv zeta.
  apply (reads_decide_bind
           (fun m => lj_str_hash_128_above_loop fuel m _ _ _ _ _ _ _ _)
           (fun x m => let '(chunk_ptr, h1, h2) := x in
                       bind (cast_uint64p m _) (fun v => _))).
  - intros m1 m2 r t E Hag.
    exact (lj_str_hash_128_above_loop_agree _ _ _ _ _ _ _ _ _ _ _ _ _ E Hag).
  - intros [[cp h1] h2]. decide_by_reads.
Qed.

Lemma lj_str_hash_crc32_decided fuel random_pos len :
  reads_decide (fun m => lj_str_hash_crc32 fuel random_pos m len).
Proof.
  unfold lj_str_hash_crc32.
  destruct (len <? 128);
    [destruct (16 <=? len); [|destruct (4 <=? len)]|].
  - apply lj_str_hash_16_128_decided.
  - apply lj_str_hash_4_16_decided.
  - apply lj_str_hash_1_4_decided.
  - apply lj_str_hash_128_above_decided.
Qed.

Lemma lj_str_hash_orig_decided lenx :
  reads_decide (fun m => lj_str_hash_orig m lenx).
Proof.
  unfold lj_str_hash_orig, lj_getu32. cbv zeta.
  destruct (4 <=? u32 lenx); [|destruct (0 <? u32 lenx)].
  - apply (reads_decide_bind
             (fun m => bind (cast_uint32p m _) (fun a => _))
             (fun r _ => match r with
                         | Some (a, b, h) => ret _
                         | None => ret 0
                         end)).
    + decide_by_reads.
    + intros [[[a b] h]|]; apply reads_decide_ret.
  - apply (reads_decide_bind
             (fun m => bind (load_u8 m _) (fun a => _))
             (fun r _ => match r with
                         | Some (a, b, h) => ret _
                         | None => ret 0
                         end)).
    + decide_by_reads.
    + intros [[[a b] h]|]; apply reads_decide_ret.
  - intros m1 m2 r t E _. exact E.
Qed.

Lemma agree_on_in_buffer L t m1 m2 :
  Forall (in_buffer L) t -> same_bytes L m1 m2 -> agree_on t m1 m2.
Proof.
  intros Hin Hsame a k Ha Hc.
  rewrite Forall_forall in Hin. destruct (Hin a Ha) as [H0 H1].
  unfold covers in Hc. apply Hsame. lia.
Qed.

(** ** The portable fallback: reads and safety *)

Lemma lj_str_hash_orig_reads str lenx :
  exists h,
    lj_str_hash_orig str lenx =
      Some (h,
            if 4 <=? u32 lenx then
              [mk_access 0 4; mk_access (u32 lenx - 4) 4;
               mk_access (Z.shiftr (u32 lenx) 1 - 2) 4;
               mk_access (Z.shiftr (u32 lenx) 2 - 1) 4]
            else if 0 <? u32 lenx then
              [mk_access 0 1; mk_access (u32 lenx - 1) 1;
               mk_access (Z.shiftr (u32 lenx) 1) 1]
            else []).
Proof.
  unfold lj_str_hash_orig.
  destruct (4 <=? u32 lenx); [|destruct (0 <? u32 lenx)];
    eexists; reflexivity.
Qed.

(** X2: the portable fallback returns for every length (a [size_t], taken
    modulo [2^32]); it reads at most 4 words, all inside the buffer, so it
    looks at no more than 16 bytes of the string however long it is. *)
Theorem lj_str_hash_orig_safe (str : memory) (lenx : Z) :
  0 <= lenx ->
  exists h t,
    lj_str_hash_orig str lenx = Some (h, t) /\
    Forall (in_buffer (u32 lenx)) t /\ u32 lenx <= lenx /\
    Forall (fun a => 1 <= acc_width a <= 4) t /\
    (length t <= 4)%nat.
Proof.
  clear RAND_MAX random_seq.
  intros Hl. destruct (lj_str_hash_orig_reads str lenx) as (h & E).
  pose proof (u32_range lenx) as Hr. pose proof (u32_le lenx Hl) as Hle.
  set (len := u32 lenx) in *.
  exists h. eexists. split; [exact E|].
  assert (H1 : Z.shiftr len 1 = len / 2)
    by (rewrite Z.shiftr_div_pow2 by lia; reflexivity).
  assert (H2 : Z.shiftr len 2 = len / 4)
    by (rewrite Z.shiftr_div_pow2 by lia; reflexivity).
  rewrite H1, H2.
  destruct (Z.leb_spec 4 len); [|destruct (Z.ltb_spec 0 len)].
  - split; [|split; [exact Hle|split; [|cbn [length]; lia]]];
      repeat (apply Forall_cons;
              [unfold in_buffer; cbn [acc_off acc_width];
               Z.div_mod_to_equations; lia|]);
      apply Forall_nil.
  - split; [|split; [exact Hle|split; [|cbn [length]; lia]]];
      repeat (apply Forall_cons;
              [unfold in_buffer; cbn [acc_off acc_width];
               Z.div_mod_to_equations; lia|]);
      apply Forall_nil.
  - split; [constructor|]. split; [exact Hle|].
    split; [constructor|cbn [length]; lia].
Qed.

(** ** The published hash function *)

Lemma filled_table_bounded t : filled_upto t 31 0 -> table_bounded t.
Proof.
  intros [_ Hok] order slot Ho Hs. apply Hok; lia.
Qed.

(** After any non-empty sequence of calls that starts with the selection
    unset, one function is selected and published by every call, and when
    it is the dispatcher the table is the one the initialisation built. *)
Lemma init_calls_published fuel s0 g1 gs s :
  (32 <= fuel)%nat -> strhashfn s0 = None ->
  length (random_pos s0) = 32%nat ->
  init_calls RAND_MAX random_seq fuel s0 (g1 :: gs) s ->
  exists fn,
    strhashfn s = Some fn /\
    Forall (fun g => g_strhashfn g = Some fn) (g1 :: gs) /\
    (fn = FN_lj_str_hash_crc32 -> table_bounded (random_pos s)).
Proof.
  intros Hf Hunset Hlen H.
  inversion H as [| env g s' s1 g1' gs' s2 E Hrest]; subst.
  assert (Hfirst : exists fn,
             strhashfn s1 = Some fn /\ g_strhashfn g1 = Some fn /\
             (fn = FN_lj_str_hash_crc32 -> table_bounded (random_pos s1))).
  { unfold lj_init_strhashfn in E. rewrite Hunset in E.
    destruct (lj_check_crc32_support (env_hw env)).
    - destruct (lj_str_hash_init_random_filled fuel (env_pid env)
                  (env_time env) (random_pos s0) Hf Hlen) as (t & Et & Hfill).
      rewrite Et in E. inversion E; subst.
      exists FN_lj_str_hash_crc32. cbn.
      split; [reflexivity|]. split; [reflexivity|].
      intros _. apply filled_table_bounded. exact Hfill.
    - inversion E; subst. exists FN_lj_str_hash_orig. cbn.
      split; [reflexivity|]. split; [reflexivity|]. discriminate. }
  destruct Hfirst as (fn & Hsel & Hpub & Htab).
  destruct (init_calls_selected _ _ _ _ _ Hrest Hsel) as [-> Hgs].
  exists fn. split; [exact Hsel|]. split; [constructor; assumption|exact Htab].
Qed.

Lemma call_strhashfn_safe fuel fn s str L :
  (8 <= fuel)%nat ->
  (fn = FN_lj_str_hash_crc32 -> table_bounded (random_pos s)) ->
  1 <= L < 2 ^ 32 ->
  exists h t,
    call_strhashfn fn fuel s str L = Some (h, t) /\
    Forall (in_buffer L) t /\ (length t <= 18)%nat.
Proof.
  intros Hf Htab HL. destruct fn; cbn [call_strhashfn].
  - destruct (lj_str_hash_crc32_safe fuel (random_pos s) str L Hf
                (Htab eq_refl) HL) as (h & t & E & Hin & _ & Hn).
    exists h, t. auto.
  - destruct (lj_str_hash_orig_safe str L ltac:(lia))
      as (h & t & E & Hin & _ & _ & Hn).
    rewrite (u32_small L) in Hin by lia.
    exists h, t. split; [exact E|]. split; [exact Hin|lia].
Qed.

(** X3: after any non-empty sequence of calls of [lj_init_strhashfn] from
    an unset selection, the function every call published, called on any
    string of length [1 <= L < 2^32], returns, reads only inside the
    buffer, and reads at most 18 words. *)
Theorem published_hash_safe (fuel : nat) (s0 s : statics)
    (g1 : global_State) (gs : list global_State) (str : memory) (L : Z) :
  (32 <= fuel)%nat -> strhashfn s0 = None ->
  length (random_pos s0) = 32%nat ->
  init_calls RAND_MAX random_seq fuel s0 (g1 :: gs) s ->
  1 <= L < 2 ^ 32 ->
  exists fn h t,
    Forall (fun g => g_strhashfn g = Some fn) (g1 :: gs) /\
    call_strhashfn fn fuel s str L = Some (h, t) /\
    Forall (in_buffer L) t /\ (length t <= 18)%nat.
Proof.
  intros Hf Hunset Hlen Hcalls HL.
  destruct (init_calls_published fuel s0 g1 gs s Hf Hunset Hlen Hcalls)
    as (fn & _ & Hpub & Htab).
  destruct (call_strhashfn_safe fuel fn s str L ltac:(lia) Htab HL)
    as (h & t & E & Hin & Hn).
  exists fn, h, t. auto.
Qed.

(** X4: the published function hashes contents, not addresses: two buffers
    of the same length [1 <= L < 2^32] with the same bytes get the same
    hash, whatever lies outside them. *)
Theorem published_hash_of_contents (fuel : nat) (s0 s : statics)
    (g1 : global_State) (gs : list global_State) (m1 m2 : memory) (L : Z) :
  (32 <= fuel)%nat -> strhashfn s0 = None ->
  length (random_pos s0) = 32%nat ->
  init_calls RAND_MAX random_seq fuel s0 (g1 :: gs) s ->
  1 <= L < 2 ^ 32 -> same_bytes L m1 m2 ->
  exists fn h,
    Forall (fun g => g_strhashfn g = Some fn) (g1 :: gs) /\
    value (call_strhashfn fn fuel s m1 L) = Some h /\
    value (call_strhashfn fn fuel s m2 L) = Some h.
Proof.
  intros Hf Hunset Hlen Hcalls HL Hsame.
  destruct (init_calls_published fuel s0 g1 gs s Hf Hunset Hlen Hcalls)
    as (fn & _ & Hpub & Htab).
  destruct (call_strhashfn_safe fuel fn s m1 L ltac:(lia) Htab HL)
    as (h & t & E & Hin & _).
  pose proof (agree_on_in_buffer L t m1 m2 Hin Hsame) as Hag.
  assert (E2 : call_strhashfn fn fuel s m2 L = Some (h, t)).
  { destruct fn; cbn [call_strhashfn] in *.
    - exact (lj_str_hash_crc32_decided fuel (random_pos s) L _ _ _ _ E Hag).
    - exact (lj_str_hash_orig_decided L _ _ _ _ E Hag). }
  exists fn, h. split; [exact Hpub|]. rewrite E, E2. split; reflexivity.
Qed.

(** ** What the routines never look at *)

(** X5: the portable fallback samples: for [4 <= L < 2^32] its hash is
    decided by four 4-byte windows, at offsets [0], [L-4], [L/2 - 2] and
    [L/4 - 1]; bytes outside them never change it. *)
Theorem lj_str_hash_orig_windows (m1 m2 : memory) (L : Z) :
  4 <= L < 2 ^ 32 ->
  (forall k, 0 <= k < 4 -> m1 k = m2 k) ->
  (forall k, L - 4 <= k < L -> m1 k = m2 k) ->
  (forall k, L / 2 - 2 <= k < L / 2 + 2 -> m1 k = m2 k) ->
  (forall k, L / 4 - 1 <= k < L / 4 + 3 -> m1 k = m2 k) ->
  lj_str_hash_orig m1 L = lj_str_hash_orig m2 L.
Proof.
  intros HL H0 H1 H2 H3.
  destruct (lj_str_hash_orig_reads m1 L) as (h & E).
  rewrite E. symmetry.
  apply (lj_str_hash_orig_decided L m1 m2 _ _ E).
  rewrite (u32_small L) by lia.
  destruct (Z.leb_spec 4 L); [|lia].
  rewrite !Z.shiftr_div_pow2 by lia.
  change (2 ^ 1) with 2. change (2 ^ 2) with 4.
  intros a k Hin Hc. unfold covers in Hc.
  destruct Hin as [<- | [<- | [<- | [<- | []]]]];
    cbn [acc_off acc_width] in Hc;
    [apply H0 | apply H1 | apply H2 | apply H3]; lia.
Qed.

(** X6: the sampled routine never looks at the upper part of a long
    string: with a bounded table, for [128 <= L < 2^32], the hash is
    decided by the first [9 * (L / 16) + 7] bytes and the last 8 bytes;
    the bytes between (about 7/16 of the string) never change it,
    whatever the random offsets. *)
Theorem lj_str_hash_128_above_unread (fuel : nat) (random_pos : table)
    (m1 m2 : memory) (L : Z) :
  (8 <= fuel)%nat -> table_bounded random_pos -> 128 <= L < 2 ^ 32 ->
  (forall k, 0 <= k < 9 * (L / 16) + 7 -> m1 k = m2 k) ->
  (forall k, L - 8 <= k < L -> m1 k = m2 k) ->
  9 * (L / 16) + 7 < L - 8 /\
  exists h t,
    lj_str_hash_128_above fuel random_pos m1 L = Some (h, t) /\
    lj_str_hash_128_above fuel random_pos m2 L = Some (h, t).
Proof.
  intros Hf Htab HL Hlow Htail.
  set (cs := L / 16) in *.
  assert (Hcs : 8 <= cs < 2 ^ 28 /\ 16 * cs <= L).
  { subst cs. pose proof (Z.mul_div_le L 16 ltac:(lia)).
    split; [split|lia].
    - apply Z.div_le_lower_bound; lia.
    - apply Z.div_lt_upper_bound; lia. }
  destruct Hcs as [Hcs Hmul].
  split; [lia|].
  destruct (log2_floor_sandwich cs ltac:(lia)) as [Ho [Hlo Hhi]].
  set (o := log2_floor cs) in *.
  assert (Ho27 : o < 28) by (apply (Z.pow_lt_mono_r_iff 2); lia).
  assert (Hpow : 2 ^ (o + 1) <= 2 * cs).
  { rewrite Z.pow_add_r by lia. change (2 ^ 1) with 2. lia. }
  pose proof (Htab o 0 ltac:(lia) ltac:(lia)) as Hp1.
  pose proof (Htab o 1 ltac:(lia) ltac:(lia)) as Hp2.
  set (p1 := tbl_get random_pos o 0) in *.
  set (p2 := tbl_get random_pos o 1) in *.
  destruct (lj_str_hash_128_above_loop_spec m1 cs p1 p2 fuel 0 0
              (lj_crc32_u32 0 L) 0) as (h1 & h2 & t & E & _ & Ht);
    [lia | lia |].
  pose proof (lj_str_hash_128_above_unfold fuel random_pos m1 L _ _ _ _ E)
    as E1.
  cbv zeta in E1. fold cs o p1 p2 in E1.
  do 2 eexists. split; [exact E1|].
  apply (lj_str_hash_128_above_decided fuel random_pos L m1 m2 _ _ E1).
  apply agree_on_app. split.
  - intros a k Hin Hc. rewrite Forall_forall in Ht.
    destruct (Ht a Hin) as (Hw & n & Hn & Hoff).
    unfold covers in Hc. rewrite Hw in Hc. apply Hlow.
    destruct Hoff as [Hoff | Hoff]; rewrite Hoff in Hc; nia.
  - intros a k Hin Hc. unfold covers in Hc.
    destruct Hin as [<- | [<- | [<- | [<- | []]]]];
      cbn [acc_off acc_width] in Hc;
      [apply Hlow | apply Hlow | apply Hlow | apply Htail]; nia.
Qed.

(** X7: the dispatcher consults rows 3..27 of the table only: two tables
    that agree on these rows give the same result for every length
    [0 <= L < 2^32] (and no row at all is consulted below 128 bytes). *)
Theorem lj_str_hash_crc32_rows (fuel : nat) (t1 t2 : table)
    (str : memory) (L : Z) :
  0 <= L < 2 ^ 32 ->
  (forall k j, 3 <= k <= 27 -> 0 <= j <= 1 ->
     tbl_get t1 k j = tbl_get t2 k j) ->
  lj_str_hash_crc32 fuel t1 str L = lj_str_hash_crc32 fuel t2 str L /\
  (L < 128 -> forall t, lj_str_hash_crc32 fuel t str L
                        = lj_str_hash_crc32 fuel t1 str L).
Proof.
  intros HL Hrows. unfold lj_str_hash_crc32.
  destruct (Z.ltb_spec L 128) as [Hs | Hl]; [split; reflexivity|].
  split; [|lia].
  rewrite (u32_small L) by lia.
  unfold lj_str_hash_128_above, get_random_pos_unsafe.
  change (Z.land 0 1) with 0. change (Z.land 1 1) with 1. cbv zeta.
  assert (Hcs : 8 <= L / 16 < 2 ^ 28).
  { split; [apply Z.div_le_lower_bound; lia|apply Z.div_lt_upper_bound; lia]. }
  destruct (log2_floor_sandwich (L / 16) ltac:(lia)) as [Ho [Hlo Hhi]].
  assert (Ho27 : log2_floor (L / 16) < 28)
    by (apply (Z.pow_lt_mono_r_iff 2); lia).
  assert (Ho3 : 3 <= log2_floor (L / 16)).
  { assert (2 ^ 3 < 2 ^ (log2_floor (L / 16) + 1)) by (change (2 ^ 3) with 8; lia).
    apply Z.pow_lt_mono_r_iff in H; lia. }
  rewrite (Hrows (log2_floor (L / 16)) 0) by lia.
  rewrite (Hrows (log2_floor (L / 16)) 1) by lia.
  reflexivity.
Qed.

(** X8: strings of 1 to 3 bytes hash the same whichever function was
    selected: the accelerated dispatcher and the portable fallback agree
    there, so these hashes do not depend on the hardware. *)
Theorem short_hash_hardware_independent (fuel : nat) (s : statics)
    (str : memory) (L : Z) :
  1 <= L <= 3 ->
  call_strhashfn FN_lj_str_hash_crc32 fuel s str L
    = call_strhashfn FN_lj_str_hash_orig fuel s str L.
Proof.
  intros HL. cbn [call_strhashfn].
  unfold lj_str_hash_crc32, lj_str_hash_orig.
  rewrite (u32_small L) by lia.
  destruct (Z.ltb_spec L 128); [|lia].
  destruct (Z.leb_spec 16 L); [lia|].
  destruct (Z.leb_spec 4 L); [lia|].
  destruct (Z.ltb_spec 0 L); [|lia].
  reflexivity.
Qed.

(** ** The capability probe *)

Lemma land_bit_eqb a n :
  0 <= n -> (Z.land a (Z.shiftl 1 n) =? 0) = negb (Z.testbit a n).
Proof.
  intros Hn. rewrite Z.shiftl_1_l.
  destruct (Z.testbit a n) eqn:T; cbn [negb].
  - apply Z.eqb_neq. intros H0.
    assert (Hb : Z.testbit (Z.land a (2 ^ n)) n = true).
    { rewrite Z.land_spec, T, Z.pow2_bits_true by lia. reflexivity. }
    rewrite H0, Z.bits_0 in Hb. discriminate.
  - apply Z.eqb_eq. apply Z.bits_inj'. intros m Hm.
    rewrite Z.land_spec, Z.bits_0, Z.pow2_bits_eqb by lia.
    destruct (Z.eqb_spec n m) as [<- | Hne].
    + rewrite T. reflexivity.
    + apply andb_false_r.
Qed.

(** X9: the probe answers exactly one feature bit: on x86-64, bit 20 of
    the third [cpuid] word (false when [lj_vm_cpuid] fails); on ARM64,
    bit 7 of the hardware capabilities, the [ENOENT] test never changing
    the answer. *)
Theorem lj_check_crc32_support_bit (hw : hardware) :
  lj_check_crc32_support hw =
    match LUAJIT_TARGET hw with
    | LUAJIT_ARCH_X64 =>
        match lj_vm_cpuid_1 hw with
        | Some features => Z.testbit (nth 2 features 0) 20
        | None => false
        end
    | LUAJIT_ARCH_ARM64 => Z.testbit (getauxval_AT_HWCAP hw) 7
    end.
Proof.
  unfold lj_check_crc32_support, F_CPU_SSE4_2, HWCAP_CRC32, ENOENT.
  destruct (LUAJIT_TARGET hw).
  - destruct (lj_vm_cpuid_1 hw) as [features|]; [|reflexivity].
    rewrite land_bit_eqb by lia. apply negb_involutive.
  - rewrite land_bit_eqb by lia. rewrite negb_involutive.
    unfold u32. rewrite Z.mod_pow2_bits_low by lia.
    destruct (Z.eqb_spec (getauxval_AT_HWCAP hw mod 2 ^ 32) 2) as [E | _];
      [|reflexivity].
    cbn [negb].
    rewrite <- (Z.mod_pow2_bits_low (getauxval_AT_HWCAP hw) 32 7) by lia.
    rewrite E. reflexivity.
Qed.

(** ** What the initialisation stores *)

Lemma land_pred_pow2 R :
  1 <= R ->
  (Z.land R (R - 1) =? 0) = (R =? 2 ^ Z.log2 R).
Proof.
  intros HR.
  pose proof (Z.log2_spec R ltac:(lia)) as [Hlo Hhi].
  pose proof (Z.log2_nonneg R) as Hk.
  set (k := Z.log2 R) in *.
  destruct (Z.eqb_spec R (2 ^ k)) as [E | Hne].
  - apply Z.eqb_eq. rewrite E at 1. rewrite E. rewrite Z.sub_1_r.
    rewrite <- Z.ones_equiv. rewrite Z.land_ones by lia.
    apply Z.mod_same. lia.
  - apply Z.eqb_neq. intros H0.
    assert (Hb1 : Z.testbit R k = true) by (apply Z.bit_log2; lia).
    assert (Hl : Z.log2 (R - 1) = k) by (apply Z.log2_unique; lia).
    assert (Hb2 : Z.testbit (R - 1) k = true).
    { rewrite <- Hl. apply Z.bit_log2. lia. }
    assert (Hb : Z.testbit (Z.land R (R - 1)) k = true)
      by (rewrite Z.land_spec, Hb1, Hb2; reflexivity).
    rewrite H0, Z.bits_0 in Hb. discriminate.
Qed.

(** The number of random bits the initialisation computes is
    ceil(log2(RAND_MAX)). *)
Lemma rand_bits_log2_up R :
  1 <= R < 2 ^ 32 ->
  (let rml := to_int (log2_floor (u32 R)) in
   if Z.land R (R - 1) =? 0 then rml else rml + 1) = Z.log2_up R.
Proof.
  intros HR. cbv zeta. rewrite (u32_small R) by lia.
  rewrite log2_floor_log2 by lia.
  pose proof (Z.log2_spec R ltac:(lia)) as [Hlo Hhi].
  pose proof (Z.log2_nonneg R) as Hk.
  assert (Hk32 : Z.log2 R < 32) by (apply Z.log2_lt_pow2; lia).
  assert (Hint : to_int (Z.log2 R) = Z.log2 R).
  { unfold to_int. rewrite u32_small by lia.
    destruct (Z.ltb_spec (Z.log2 R) (2 ^ 31)); lia. }
  rewrite Hint, land_pred_pow2 by lia.
  destruct (Z.eq_dec R 1) as [-> | H1]; [reflexivity|].
  rewrite Z.log2_up_eqn by lia. rewrite <- Z.sub_1_r.
  assert (Hk1 : 1 <= Z.log2 R).
  { apply Z.log2_le_pow2; [lia|]. change (2 ^ 1) with 2. lia. }
  destruct (Z.eqb_spec R (2 ^ Z.log2 R)) as [E | Hne].
  - assert (Hl : Z.log2 (R - 1) = Z.log2 R - 1).
    { apply Z.log2_unique; [lia|].
      replace (Z.succ (Z.log2 R - 1)) with (Z.log2 R) by lia.
      assert (2 ^ Z.log2 R = 2 * 2 ^ (Z.log2 R - 1)).
      { rewrite <- Z.pow_succ_r by lia. f_equal. lia. }
      lia. }
    lia.
  - assert (Hl : Z.log2 (R - 1) = Z.log2 R) by (apply Z.log2_unique; lia).
    lia.
Qed.

Lemma cell_value_set_other seed rml t i j v k s :
  1 <= rml -> k <= i ->
  cell_value random_seq seed rml (tbl_set t i j v) k s
    = cell_value random_seq seed rml t k s.
Proof.
  intros Hrml Hk. unfold cell_value, scale_of.
  rewrite tbl_get_set_other_row by lia. reflexivity.
Qed.

(** Storing its [cell_value] into cell [(i, j)] after one more draw
    advances the progress to [(i, j + 1)]. *)
Lemma drawn_upto_store seed rml st i j v :
  drawn_upto random_seq seed rml st i j ->
  3 <= i <= 31 -> 0 <= j <= 1 -> 1 <= rml ->
  v = cell_value random_seq seed rml (st_random_pos st) i j ->
  drawn_upto random_seq seed rml
    (mk_init_state (tbl_set (st_random_pos st) i j v)
                   (S (st_random_calls st))) i (j + 1).
Proof.
  intros (Hlen & Hcalls & Hcells) Hi Hj Hrml Hv.
  split; [cbn [st_random_pos]; rewrite tbl_set_length; exact Hlen|].
  split; [cbn [st_random_calls]; lia|].
  intros k s Hk Hs Hbefore. cbn [st_random_pos].
  rewrite cell_value_set_other by lia.
  destruct (Z.eq_dec k i) as [-> | Hne].
  - destruct (Z.eq_dec s j) as [-> | Hsj].
    + rewrite tbl_get_set_same by lia. exact Hv.
    + rewrite tbl_get_set_other_slot by lia. apply Hcells; lia.
  - rewrite tbl_get_set_other_row by exact Hne. apply Hcells; lia.
Qed.

Lemma drawn_upto_next_row seed rml st i :
  drawn_upto random_seq seed rml st i 2 ->
  drawn_upto random_seq seed rml st (i + 1) 0.
Proof.
  intros (Hlen & Hcalls & Hcells). split; [exact Hlen|]. split; [lia|].
  intros k s Hk Hs Hb. apply Hcells; lia.
Qed.

Lemma masked_value x k :
  0 <= k <= 31 ->
  u32 (Z.land x (POW2_MASK (k + 1))) = x mod 2 ^ (k + 1).
Proof.
  intros Hk. rewrite POW2_MASK_land by lia. apply u32_small.
  assert (Hp : 0 < 2 ^ (k + 1)) by (apply Z.pow_pos_nonneg; lia).
  pose proof (Z.mod_pos_bound x (2 ^ (k + 1)) Hp).
  assert (2 ^ (k + 1) <= 2 ^ 32) by (apply Z.pow_le_mono_r; lia). lia.
Qed.

Lemma init_random_zero_calls (fuel : nat) :
  forall i st i' st',
    init_random_zero fuel i st = Some (i', st') ->
    st_random_calls st' = st_random_calls st /\
    length (st_random_pos st') = length (st_random_pos st) /\
    i' = Z.max i 3.
Proof.
  induction fuel as [|fuel IH]; intros i st i' st' E; [discriminate|].
  cbn [init_random_zero] in E.
  destruct (Z.ltb_spec i 3).
  - apply IH in E. cbn [store st_random_pos st_random_calls] in E.
    rewrite !tbl_set_length in E. destruct E as (E1 & E2 & E3).
    split; [exact E1|]. split; [exact E2|lia].
  - inversion E; subst. split; [reflexivity|]. split; [reflexivity|lia].
Qed.

Lemma init_random_masked_drawn (seed rml : Z) (fuel : nat) :
  forall i st i' st',
    init_random_masked random_seq fuel seed rml i st = Some (i', st') ->
    3 <= i -> 1 <= rml <= 32 ->
    drawn_upto random_seq seed rml st i 0 ->
    i' = Z.max i rml /\ drawn_upto random_seq seed rml st' i' 0.
Proof.
  induction fuel as [|fuel IH]; intros i st i' st' E Hi Hrml Hd;
    [discriminate|].
  cbn [init_random_masked] in E.
  destruct (Z.ltb_spec i rml) as [Hlt | Hge].
  - unfold random, store in E. cbn [st_random_pos st_random_calls] in E.
    apply IH in E; [destruct E as [-> E]; split; [lia|exact E] | lia | lia |].
    apply drawn_upto_next_row.
    destruct Hd as (Hl & Hc & Hcells).
    apply (drawn_upto_store seed rml
             (mk_init_state
                (tbl_set (st_random_pos st) i 0
                   (u32 (Z.land (random_seq seed (st_random_calls st))
                           (POW2_MASK (i + 1)))))
                (S (st_random_calls st))) i 1); [| lia | lia | lia |].
    + apply (drawn_upto_store seed rml st i 0);
        [split; [exact Hl|split; [exact Hc|exact Hcells]] | lia | lia | lia |].
      rewrite masked_value by lia. unfold cell_value.
      destruct (Z.ltb_spec i rml); [|lia].
      replace (Z.to_nat (2 * (i - 3) + 0)) with (st_random_calls st) by lia.
      reflexivity.
    + cbn [st_random_pos st_random_calls].
      rewrite masked_value by lia. unfold cell_value.
      destruct (Z.ltb_spec i rml); [|lia].
      replace (Z.to_nat (2 * (i - 3) + 1)) with (S (st_random_calls st)) by lia.
      reflexivity.
  - inversion E; subst. split; [lia|exact Hd].
Qed.

Lemma init_random_scaled_row_drawn (seed rml i : Z) (fuel : nat) :
  forall j st st',
    init_random_scaled_row random_seq fuel seed rml i j st = Some st' ->
    0 <= j <= 2 -> 3 <= i <= 31 -> 1 <= rml <= i ->
    drawn_upto random_seq seed rml st i j ->
    drawn_upto random_seq seed rml st' i 2.
Proof.
  induction fuel as [|fuel IH]; intros j st st' E Hj Hi Hrml Hd;
    [discriminate|].
  cbn [init_random_scaled_row] in E.
  destruct (Z.ltb_spec j 2) as [Hlt | Hge].
  - unfold random, store in E. cbn [st_random_pos st_random_calls] in E.
    apply IH in E; [exact E | lia | lia | lia |].
    apply drawn_upto_store; [exact Hd | lia | lia | lia |].
    rewrite u32_idem, masked_value by lia. unfold cell_value, scale_of.
    destruct (Z.ltb_spec i rml); [lia|].
    destruct Hd as (_ & Hc & _).
    replace (Z.to_nat (2 * (i - 3) + j)) with (st_random_calls st) by lia.
    reflexivity.
  - inversion E; subst. assert (j = 2) as -> by lia. exact Hd.
Qed.

Lemma init_random_scaled_drawn (seed rml : Z) (fuel : nat) :
  forall i st st',
    init_random_scaled random_seq fuel seed rml i st = Some st' ->
    3 <= i -> 1 <= rml <= i ->
    drawn_upto random_seq seed rml st i 0 ->
    drawn_upto random_seq seed rml st' (Z.max i 31) 0.
Proof.
  induction fuel as [|fuel IH]; intros i st st' E Hi Hrml Hd; [discriminate|].
  cbn [init_random_scaled] in E.
  destruct (Z.ltb_spec i 31) as [Hlt | Hge].
  - destruct (init_random_scaled_row random_seq (S fuel) seed rml i 0 st)
      as [st1|] eqn:E1; [|discriminate].
    apply init_random_scaled_row_drawn in E1; [| lia | lia | lia | exact Hd].
    apply IH in E; [| lia | lia | apply drawn_upto_next_row; exact E1].
    replace (Z.max i 31) with (Z.max (i + 1) 31) by lia. exact E.
  - inversion E; subst. replace (Z.max i 31) with i by lia. exact Hd.
Qed.

(** X10: what the initialisation computes, for [2 <= RAND_MAX < 2^31]:
    with [rml = ceil(log2(RAND_MAX))] and the seed mixed from the process
    id and the time, the cell [random_pos[order][slot]] of every order
    3..30 is the draw number [2 * (order - 3) + slot], reduced modulo
    [2^(order+1)], after multiplication by the scale factor of row
    [order - rml] from order [rml] on: 56 draws, one per cell, in row
    order. *)
Theorem lj_str_hash_init_random_cells (fuel : nat) (pid time : Z)
    (t0 : table) :
  (32 <= fuel)%nat -> length t0 = 32%nat -> 2 <= RAND_MAX < 2 ^ 31 ->
  exists t,
    lj_str_hash_init_random RAND_MAX random_seq fuel pid time t0 = Some t /\
    let seed := to_int (lj_crc32_u32 (to_int (lj_crc32_u32 0 pid)) time) in
    let rml := Z.log2_up RAND_MAX in
    forall order slot, 3 <= order <= 30 -> 0 <= slot <= 1 ->
      tbl_get t order slot =
        let r := random_seq seed (Z.to_nat (2 * (order - 3) + slot)) in
        if order <? rml then r mod 2 ^ (order + 1)
        else (r * scale_of t (order - rml)) mod 2 ^ (order + 1).
Proof.
  intros Hf Hlen HR.
  destruct (lj_str_hash_init_random_filled fuel pid time t0 Hf Hlen)
    as (t & E & _).
  exists t. split; [exact E|]. cbv zeta.
  pose proof (rand_bits_log2_up RAND_MAX ltac:(lia)) as Hrml. cbv zeta in Hrml.
  assert (Hup : 1 <= Z.log2_up RAND_MAX <= 31).
  { pose proof (Z.log2_up_pos RAND_MAX ltac:(lia)).
    pose proof (proj1 (Z.log2_up_le_pow2 RAND_MAX 31 ltac:(lia)) ltac:(lia)).
    lia. }
  unfold lj_str_hash_init_random in E. rewrite Hrml in E.
  set (seed := to_int (lj_crc32_u32 (to_int (lj_crc32_u32 0 pid)) time)) in *.
  set (rml := Z.log2_up RAND_MAX) in *.
  destruct (init_random_zero fuel 0 (mk_init_state t0 0))
    as [[i1 st1]|] eqn:E1; [|discriminate].
  destruct (init_random_masked random_seq fuel seed rml i1 st1)
    as [[i2 st2]|] eqn:E2; [|discriminate].
  destruct (init_random_scaled random_seq fuel seed rml i2 st2)
    as [st3|] eqn:E3; [|discriminate].
  inversion E; subst t.
  apply init_random_zero_calls in E1.
  cbn [st_random_calls st_random_pos] in E1. destruct E1 as (Hc1 & Hl1 & ->).
  replace (Z.max 0 3) with 3 in E2 by lia.
  assert (Hd1 : drawn_upto random_seq seed rml st1 3 0).
  { split; [congruence|]. split; [lia|]. intros k s Hk Hs Hb. lia. }
  apply init_random_masked_drawn in E2; [| lia | lia | exact Hd1].
  destruct E2 as [-> Hd2].
  apply init_random_scaled_drawn in E3; [| lia | lia | exact Hd2].
  destruct E3 as (_ & _ & Hcells).
  intros order slot Ho Hs. apply Hcells; lia.
Qed.

(** ** One- and two-byte strings never collide *)

Lemma strict_sorted_lt x l :
  strict_sorted (x :: l) = true -> Forall (Z.lt x) l.
Proof.
  revert x. induction l as [|y l IH]; intros x H; [constructor|].
  cbn [strict_sorted] in H. apply andb_prop in H. destruct H as [Hxy Hl].
  apply Z.ltb_lt in Hxy. constructor; [exact Hxy|].
  eapply Forall_impl; [|exact (IH y Hl)]. intros z Hz. lia.
Qed.

Lemma strict_sorted_NoDup l : strict_sorted l = true -> NoDup l.
Proof.
  clear RAND_MAX random_seq.
  induction l as [|x l IH]; intros H; [constructor|].
  constructor.
  - intros Hin. pose proof (strict_sorted_lt x l H) as Hlt.
    rewrite Forall_forall in Hlt. specialize (Hlt x Hin). lia.
  - apply IH. destruct l as [|y l]; [reflexivity|].
    cbn [strict_sorted] in H. apply andb_prop in H. tauto.
Qed.

Lemma NoDup_map_injective {A B} (f : A -> B) l a b :
  NoDup (map f l) -> In a l -> In b l -> f a = f b -> a = b.
Proof.
  induction l as [|x l IH]; intros Hnd Ha Hb Hf; [contradiction|].
  cbn [map] in Hnd. inversion Hnd as [|y l' Hnotin Hnd']; subst.
  destruct Ha as [-> | Ha], Hb as [-> | Hb].
  - reflexivity.
  - exfalso. apply Hnotin. rewrite Hf. apply in_map. exact Hb.
  - exfalso. apply Hnotin. rewrite <- Hf. apply in_map. exact Ha.
  - apply IH; assumption.
Qed.

Lemma short_strs_hashes_distinct : NoDup (map short_hash short_strs).
Proof.
  apply (Permutation_NoDup
           (Permutation_sym
              (ZSort.Permuted_sort (map short_hash short_strs)))).
  apply strict_sorted_NoDup. vm_cast_no_check (eq_refl true).
Qed.

Lemma In_range256 x : 0 <= x < 256 -> In x range256.
Proof.
  intros Hx. unfold range256. rewrite <- (Z2Nat.id x) by lia.
  apply in_map. apply in_seq. lia.
Qed.

Lemma u8_range x : 0 <= u8 x < 256.
Proof. unfold u8. apply Z.mod_pos_bound. reflexivity. Qed.

Lemma u32_w32 x : u32 x = w32 x.
Proof.
  unfold u32, w32. change 4294967295 with (Z.ones 32).
  symmetry. apply Z.land_ones. lia.
Qed.

Lemma w32_range x : 0 <= w32 x < 2 ^ 32.
Proof. rewrite <- u32_w32. apply u32_range. Qed.

Lemma lj_rol_masked x n :
  0 <= x < 2 ^ 32 -> 1 <= n <= 31 -> lj_rol x n = rol_masked x n.
Proof.
  clear RAND_MAX random_seq.
  intros Hx Hn. unfold lj_rol, rol_masked.
  rewrite (u32_small x) by exact Hx. rewrite u32_w32.
  change 31 with (Z.ones 5). rewrite Z.land_ones by lia.
  replace ((- n) mod 2 ^ 5) with (32 - n); [reflexivity|].
  change (2 ^ 5) with 32. Z.div_mod_to_equations. lia.
Qed.

Lemma le_bytes_1 m off : le_bytes m off 1 = u8 (m off).
Proof. unfold le_bytes. lia. Qed.

(** The value of the [1, 4) routine is the mix of the length and of three
    bytes of the buffer, each as a value in 0..255. *)
Lemma lj_str_hash_1_4_value m len :
  value (lj_str_hash_1_4 m len) =
    Some (mix_1_4 len (u8 (m 0)) (u8 (m (len - 1)))
            (u8 (m (Z.shiftr len 1)))).
Proof.
  unfold lj_str_hash_1_4, load_u8. cbn [bind ret value option_map fst].
  rewrite !le_bytes_1. unfold mix_1_4. cbv zeta.
  assert (Hb : 0 <= u8 (m (Z.shiftr len 1)) < 2 ^ 32).
  { pose proof (u8_range (m (Z.shiftr len 1))). lia. }
  rewrite !u32_w32.
  rewrite (lj_rol_masked (u8 (m (Z.shiftr len 1))) 14) by (try exact Hb; lia).
  rewrite (lj_rol_masked (w32 _) 11) by (try apply w32_range; lia).
  rewrite (lj_rol_masked (w32 _) 25) by (try apply w32_range; lia).
  rewrite (lj_rol_masked (w32 _) 16) by (try apply w32_range; lia).
  reflexivity.
Qed.

Lemma In_short_strs_1 x : 0 <= x < 256 -> In [x] short_strs.
Proof.
  intros Hx. unfold short_strs. apply in_or_app. left.
  apply (in_map (fun x => [x])). apply In_range256. exact Hx.
Qed.

Lemma In_short_strs_2 x y :
  0 <= x < 256 -> 0 <= y < 256 -> In [x; y] short_strs.
Proof.
  intros Hx Hy. unfold short_strs. apply in_or_app. right.
  apply (in_map (fun p => [fst p; snd p]) _ (x, y)).
  apply in_prod; apply In_range256; assumption.
Qed.

Lemma call_strhashfn_1_4 fn fuel s m L :
  1 <= L <= 3 -> call_strhashfn fn fuel s m L = lj_str_hash_1_4 m L.
Proof.
  intros HL. destruct fn; cbn [call_strhashfn];
    unfold lj_str_hash_crc32, lj_str_hash_orig;
    rewrite (u32_small L) by lia.
  - destruct (Z.ltb_spec L 128); [|lia].
    destruct (Z.leb_spec 16 L); [lia|].
    destruct (Z.leb_spec 4 L); [lia|]. reflexivity.
  - destruct (Z.leb_spec 4 L); [lia|].
    destruct (Z.ltb_spec 0 L); [|lia]. reflexivity.
Qed.

(** X11: under either hash function, no two different strings of one or
    two bytes have the same hash: equal hashes of two such strings force
    equal lengths and equal bytes. *)
Theorem short_strings_never_collide (fn : StrHashFunction) (fuel : nat)
    (s : statics) (m1 m2 : memory) (L1 L2 : Z) :
  1 <= L1 <= 2 -> 1 <= L2 <= 2 ->
  value (call_strhashfn fn fuel s m1 L1)
    = value (call_strhashfn fn fuel s m2 L2) ->
  L1 = L2 /\ forall k, 0 <= k < L1 -> u8 (m1 k) = u8 (m2 k).
Proof.
  intros H1 H2 E.
  rewrite !call_strhashfn_1_4 in E by lia.
  pose proof (u8_range (m1 0)). pose proof (u8_range (m1 1)).
  pose proof (u8_range (m2 0)). pose proof (u8_range (m2 1)).
  assert (HL1 : L1 = 1 \/ L1 = 2) by lia.
  assert (HL2 : L2 = 1 \/ L2 = 2) by lia.
  rewrite !lj_str_hash_1_4_value in E. injection E as E.
  destruct HL1 as [-> | ->], HL2 as [-> | ->];
    change (1 - 1) with 0 in E; change (2 - 1) with 1 in E;
    change (Z.shiftr 1 1) with 0 in E; change (Z.shiftr 2 1) with 1 in E;
    [ change (short_hash [u8 (m1 0)] = short_hash [u8 (m2 0)]) in E
    | change (short_hash [u8 (m1 0)]
              = short_hash [u8 (m2 0); u8 (m2 1)]) in E
    | change (short_hash [u8 (m1 0); u8 (m1 1)]
              = short_hash [u8 (m2 0)]) in E
    | change (short_hash [u8 (m1 0); u8 (m1 1)]
              = short_hash [u8 (m2 0); u8 (m2 1)]) in E ];
    apply (NoDup_map_injective short_hash short_strs) in E;
    try exact short_strs_hashes_distinct;
    try (apply In_short_strs_1; assumption);
    try (apply In_short_strs_2; assumption);
    try discriminate E.
  - injection E as E0. split; [reflexivity|].
    intros k Hk. assert (k = 0) as -> by lia. exact E0.
  - injection E as E0 E1. split; [reflexivity|].
    intros k Hk. assert (k = 0 \/ k = 1) as [-> | ->] by lia; assumption.
Qed.

End HashProperties.

(** * Concrete runs, with the CRC32C instruction *)

Lemma log2_floor_correct_witness :
  1 <= 200 <= 2 ^ 32 - 1 /\ log2_floor 200 = Z.log2 200.
Proof.
  assert (H : 1 <= 200 <= 2 ^ 32 - 1) by lia.
  split; [exact H|].
  exact (proj1 (log2_floor_correct 200 H)).
Defined.

Lemma short_strings_fully_read_witness :
  (8 <= 8)%nat /\ 1 <= 21 <= 127 /\ 0 <= 4 < 21 /\
  exists h t,
    lj_str_hash_crc32 (crc := crc32c_hw) 8 random_pos_static bytes_200 21
      = Some (h, t) /\
    covered t 4.
Proof.
  assert (Hf : (8 <= 8)%nat) by lia.
  assert (HL : 1 <= 21 <= 127) by lia.
  assert (Hi : 0 <= 4 < 21) by lia.
  split; [exact Hf|]. split; [exact HL|]. split; [exact Hi|].
  destruct (@short_strings_fully_read crc32c_hw 8 random_pos_static bytes_200
              21 4 Hf HL Hi) as (h & t & E & Hc & _).
  exists h, t. split; [exact E | exact Hc].
Defined.

Lemma lj_str_hash_16_128_tail_witness :
  (8 <= 8)%nat /\ 16 <= 16 < 128 /\
  tail_16_128_folds (crc := crc32c_hw) 8 bytes_0_15 16 (16 - 16) (16 - 8).
Proof.
  assert (Hf : (8 <= 8)%nat) by lia.
  assert (Hl : 16 <= 16 < 128) by lia.
  split; [exact Hf|]. split; [exact Hl|].
  exact (proj1 (@lj_str_hash_16_128_tail crc32c_hw 8 bytes_0_15 16 Hf Hl)).
Defined.

(** C5 as stated fails: on the 16-byte string 00 01 .. 0f, with the CRC32C
    instruction, the accumulators before the final combine are not those
    of folding the last 8 bytes into [h1] and the 8 bytes before them into
    [h2]. *)
Lemma lj_str_hash_16_128_tail_not_swapped :
  (8 <= 8)%nat /\ 16 <= 16 < 128 /\
  ~ tail_16_128_folds (crc := crc32c_hw) 8 bytes_0_15 16 (16 - 8) (16 - 16).
Proof.
  split; [lia|]. split; [lia|].
  intros (h1 & h2 & t & E & V & _).
  vm_compute in E. inversion E; subst h1 h2 t.
  vm_compute in V. discriminate V.
Qed.

Lemma lj_str_hash_orig_1_4_witness :
  1 <= 3 <= 3 /\ lj_str_hash_orig bytes_0_15 3 = lj_str_hash_1_4 bytes_0_15 3.
Proof.
  assert (H : 1 <= 3 <= 3) by lia.
  split; [exact H|].
  exact (proj1 (lj_str_hash_orig_1_4 bytes_0_15 3 H)).
Defined.

Lemma lj_str_hash_init_random_bounds_witness :
  (32 <= 32)%nat /\ length random_pos_static = 32%nat /\
  exists t,
    lj_str_hash_init_random (crc := crc32c_hw) 2147483647 random_lcg
      32 1234 5678 random_pos_static = Some t /\
    forall order slot, 0 <= order <= 30 -> 0 <= slot <= 1 ->
      0 <= tbl_get t order slot < 2 ^ (order + 1) /\
      (order < 3 -> tbl_get t order slot = 0).
Proof.
  assert (Hf : (32 <= 32)%nat) by lia.
  assert (Hl : length random_pos_static = 32%nat) by reflexivity.
  split; [exact Hf|]. split; [exact Hl|].
  exact (@lj_str_hash_init_random_bounds crc32c_hw 2147483647 random_lcg
           32 1234 5678 random_pos_static Hf Hl).
Defined.

(** C4: with a generator whose draws are all 5 (and [RAND_MAX = 2^31 - 1])
    the initialisation leaves [random_pos[3][0] = 5], below the band's
    lower bound [2^3] that the comment above [lj_str_hash_init_random]
    promises. *)
Theorem lj_str_hash_init_random_below_band :
  lj_str_hash_init_random (crc := crc32c_hw) 2147483647 random_always_5
    32 1234 5678 random_pos_static = Some random_pos_5 /\
  tbl_get random_pos_5 3 0 = 5 /\
  ~ 2 ^ 3 <= tbl_get random_pos_5 3 0.
Proof.
  split; [vm_compute; reflexivity|].
  split; [reflexivity|].
  vm_compute. intros H. apply H. reflexivity.
Qed.

Lemma lj_str_hash_128_above_in_buffer_witness :
  (32 <= 32)%nat /\ length random_pos_static = 32%nat /\
  128 <= 200 < 2 ^ 32 /\
  exists random_pos h t,
    lj_str_hash_init_random (crc := crc32c_hw) 2147483647 random_lcg
      32 1234 5678 random_pos_static = Some random_pos /\
    lj_str_hash_128_above (crc := crc32c_hw) 32 random_pos bytes_200 200
      = Some (h, t) /\
    length t = 18%nat /\
    Forall (fun a => acc_width a = 8 /\ in_buffer 200 a) t.
Proof.
  assert (Hf : (32 <= 32)%nat) by lia.
  assert (Hl : length random_pos_static = 32%nat) by reflexivity.
  assert (Hn : 128 <= 200 < 2 ^ 32) by lia.
  split; [exact Hf|]. split; [exact Hl|]. split; [exact Hn|].
  exact (@lj_str_hash_128_above_in_buffer crc32c_hw 2147483647 random_lcg
           32 1234 5678 random_pos_static bytes_200 200 Hf Hl Hn).
Defined.

Lemma bytes_200_flip_150_elsewhere k :
  k <> 150 -> bytes_200 k = bytes_200_flip_150 k.
Proof.
  intros Hk. unfold bytes_200, bytes_200_flip_150.
  destruct (Z.eqb_spec k 150); [contradiction|reflexivity].
Qed.

Lemma bytes_200_sampled_agree :
  agree_on
    (sampled_reads
       (reads (lj_str_hash_128_above (crc := crc32c_hw) 8 random_pos_5
                 bytes_200 200)))
    bytes_200 bytes_200_flip_150.
Proof.
  intros a k Hin Hc. apply bytes_200_flip_150_elsewhere.
  vm_compute in Hin. unfold covers in Hc.
  repeat (destruct Hin as [<- | Hin]; [cbn [acc_off acc_width] in Hc; lia|]).
  contradiction.
Qed.

Lemma lj_str_hash_128_above_sampled_witness :
  (8 <= 8)%nat /\ 128 <= 200 /\
  exists h t,
    lj_str_hash_128_above (crc := crc32c_hw) 8 random_pos_5 bytes_200 200
      = Some (h, t) /\
    lj_str_hash_128_above (crc := crc32c_hw) 8 random_pos_5
      bytes_200_flip_150 200 = Some (h, t).
Proof.
  assert (Hf : (8 <= 8)%nat) by lia.
  assert (HL : 128 <= 200) by lia.
  split; [exact Hf|]. split; [exact HL|].
  apply (@lj_str_hash_128_above_sampled crc32c_hw 8 random_pos_5 bytes_200
           bytes_200_flip_150 200 Hf HL).
  - intros k Hk. apply bytes_200_flip_150_elsewhere. lia.
  - intros k Hk. apply bytes_200_flip_150_elsewhere. lia.
  - exact bytes_200_sampled_agree.
Defined.

Lemma lj_init_strhashfn_once_witness :
  (32 <= 32)%nat /\ strhashfn statics_initial = None /\
  length (random_pos statics_initial) = 32%nat /\
  exists fn s,
    fn = (if lj_check_crc32_support x64_sse42
          then FN_lj_str_hash_crc32 else FN_lj_str_hash_orig) /\
    lj_init_strhashfn (crc := crc32c_hw) 2147483647 random_always_5 32
      (mk_call_env x64_sse42 1234 5678) statics_initial
      (mk_global_State None)
      = Some (s, mk_global_State (Some fn)) /\
    strhashfn s = Some fn /\
    (forall env g,
       lj_init_strhashfn (crc := crc32c_hw) 2147483647 random_always_5 32
         env s g = Some (s, mk_global_State (Some fn))) /\
    init_calls_on (crc := crc32c_hw) 2147483647 random_always_5 32
      statics_initial
      [(mk_call_env x64_sse42 1234 5678, mk_global_State None);
       (mk_call_env arm64_plain 4321 8765, mk_global_State None)]
      (repeat (mk_global_State (Some fn)) 2) s /\
    (forall gs' s',
       init_calls_on (crc := crc32c_hw) 2147483647 random_always_5 32
         statics_initial
         [(mk_call_env x64_sse42 1234 5678, mk_global_State None);
          (mk_call_env arm64_plain 4321 8765, mk_global_State None)]
         gs' s' ->
       gs' = repeat (mk_global_State (Some fn)) 2 /\ s' = s) /\
    (init_random_runs s <= S (init_random_runs statics_initial))%nat /\
    (fn = FN_lj_str_hash_crc32 ->
     init_random_runs s = S (init_random_runs statics_initial)) /\
    (fn = FN_lj_str_hash_orig ->
     init_random_runs s = init_random_runs statics_initial /\
     random_pos s = random_pos statics_initial).
Proof.
  assert (Hf : (32 <= 32)%nat) by lia.
  assert (Hu : strhashfn statics_initial = None) by reflexivity.
  assert (Hl : length (random_pos statics_initial) = 32%nat) by reflexivity.
  split; [exact Hf|]. split; [exact Hu|]. split; [exact Hl|].
  exact (@lj_init_strhashfn_once crc32c_hw 2147483647 random_always_5 32
           statics_initial
           (mk_call_env x64_sse42 1234 5678, mk_global_State None)
           [(mk_call_env arm64_plain 4321 8765, mk_global_State None)]
           Hf Hu Hl).
Defined.

(** * Concrete runs for the further properties *)

Lemma random_pos_5_bounded : table_bounded random_pos_5.
Proof.
  destruct (@lj_str_hash_init_random_filled crc32c_hw 2147483647
              random_always_5 32 1234 5678 random_pos_static)
    as (t & E & Hfill); [lia | reflexivity |].
  assert (Et : Some random_pos_5 = Some t)
    by (rewrite <- E; vm_compute; reflexivity).
  inversion Et; subst t. apply filled_table_bounded. exact Hfill.
Qed.

Lemma init_calls_twice :
  init_calls (crc := crc32c_hw) 2147483647 random_always_5 32
    statics_initial [published_crc32; published_crc32] statics_crc32_5.
Proof.
  apply (init_calls_cons _ _ _ (mk_call_env x64_sse42 1234 5678)
           (mk_global_State None) _ statics_crc32_5);
    [vm_compute; reflexivity|].
  apply (init_calls_cons _ _ _ (mk_call_env x64_sse42 1234 5678)
           (mk_global_State None) _ statics_crc32_5);
    [vm_compute; reflexivity|].
  apply init_calls_nil.
Qed.

Lemma bytes_200_elsewhere_same : same_bytes 200 bytes_200 bytes_200_elsewhere.
Proof.
  intros k Hk. unfold bytes_200, bytes_200_elsewhere.
  destruct (Z.leb_spec 0 k); [|lia]. destruct (Z.ltb_spec k 200); [|lia].
  reflexivity.
Qed.

Lemma rows_agreeb_sound t1 t2 lo n :
  rows_agreeb t1 t2 lo n = true ->
  forall k j, Z.of_nat lo <= k < Z.of_nat lo + Z.of_nat n -> 0 <= j <= 1 ->
    tbl_get t1 k j = tbl_get t2 k j.
Proof.
  unfold rows_agreeb. rewrite forallb_forall. intros H k j Hk Hj.
  specialize (H (Z.to_nat k)). rewrite Z2Nat.id in H by lia.
  assert (Hin : In (Z.to_nat k) (seq lo n)) by (apply in_seq; lia).
  apply H in Hin. apply andb_prop in Hin. destruct Hin as [H0 H1].
  apply Z.eqb_eq in H0. apply Z.eqb_eq in H1.
  assert (j = 0 \/ j = 1) as [-> | ->] by lia; assumption.
Qed.

Lemma lj_str_hash_crc32_safe_witness :
  (8 <= 8)%nat /\ table_bounded random_pos_5 /\ 1 <= 200 < 2 ^ 32 /\
  exists h t,
    lj_str_hash_crc32 (crc := crc32c_hw) 8 random_pos_5 bytes_200 200
      = Some (h, t) /\
    Forall (in_buffer 200) t /\
    Forall (fun a => 1 <= acc_width a <= 8) t /\
    (length t <= 18)%nat.
Proof.
  assert (Hf : (8 <= 8)%nat) by lia.
  assert (HL : 1 <= 200 < 2 ^ 32) by lia.
  split; [exact Hf|]. split; [exact random_pos_5_bounded|].
  split; [exact HL|].
  exact (@lj_str_hash_crc32_safe crc32c_hw 8 random_pos_5 bytes_200 200
           Hf random_pos_5_bounded HL).
Defined.

Lemma lj_str_hash_orig_safe_witness :
  0 <= 200 /\
  exists h t,
    lj_str_hash_orig bytes_200 200 = Some (h, t) /\
    Forall (in_buffer (u32 200)) t /\ u32 200 <= 200 /\
    Forall (fun a => 1 <= acc_width a <= 4) t /\
    (length t <= 4)%nat.
Proof.
  assert (H : 0 <= 200) by lia.
  split; [exact H|]. exact (lj_str_hash_orig_safe bytes_200 200 H).
Defined.

Lemma published_hash_safe_witness :
  (32 <= 32)%nat /\ strhashfn statics_initial = None /\
  length (random_pos statics_initial) = 32%nat /\
  init_calls (crc := crc32c_hw) 2147483647 random_always_5 32
    statics_initial [published_crc32; published_crc32] statics_crc32_5 /\
  1 <= 200 < 2 ^ 32 /\
  exists fn h t,
    Forall (fun g => g_strhashfn g = Some fn)
      [published_crc32; published_crc32] /\
    call_strhashfn (crc := crc32c_hw) fn 32 statics_crc32_5 bytes_200 200
      = Some (h, t) /\
    Forall (in_buffer 200) t /\ (length t <= 18)%nat.
Proof.
  assert (Hf : (32 <= 32)%nat) by lia.
  assert (Hu : strhashfn statics_initial = None) by reflexivity.
  assert (Hl : length (random_pos statics_initial) = 32%nat) by reflexivity.
  assert (HL : 1 <= 200 < 2 ^ 32) by lia.
  split; [exact Hf|]. split; [exact Hu|]. split; [exact Hl|].
  split; [exact init_calls_twice|]. split; [exact HL|].
  exact (@published_hash_safe crc32c_hw 2147483647 random_always_5 32
           statics_initial statics_crc32_5 published_crc32 [published_crc32]
           bytes_200 200 Hf Hu Hl init_calls_twice HL).
Defined.

Lemma published_hash_of_contents_witness :
  (32 <= 32)%nat /\ strhashfn statics_initial = None /\
  length (random_pos statics_initial) = 32%nat /\
  init_calls (crc := crc32c_hw) 2147483647 random_always_5 32
    statics_initial [published_crc32; published_crc32] statics_crc32_5 /\
  1 <= 200 < 2 ^ 32 /\ same_bytes 200 bytes_200 bytes_200_elsewhere /\
  exists fn h,
    Forall (fun g => g_strhashfn g = Some fn)
      [published_crc32; published_crc32] /\
    value (call_strhashfn (crc := crc32c_hw) fn 32 statics_crc32_5
             bytes_200 200) = Some h /\
    value (call_strhashfn (crc := crc32c_hw) fn 32 statics_crc32_5
             bytes_200_elsewhere 200) = Some h.
Proof.
  assert (Hf : (32 <= 32)%nat) by lia.
  assert (Hu : strhashfn statics_initial = None) by reflexivity.
  assert (Hl : length (random_pos statics_initial) = 32%nat) by reflexivity.
  assert (HL : 1 <= 200 < 2 ^ 32) by lia.
  split; [exact Hf|]. split; [exact Hu|]. split; [exact Hl|].
  split; [exact init_calls_twice|]. split; [exact HL|].
  split; [exact bytes_200_elsewhere_same|].
  exact (@published_hash_of_contents crc32c_hw 2147483647 random_always_5 32
           statics_initial statics_crc32_5 published_crc32 [published_crc32]
           bytes_200 bytes_200_elsewhere 200 Hf Hu Hl init_calls_twice HL
           bytes_200_elsewhere_same).
Defined.

Lemma lj_str_hash_orig_windows_witness :
  4 <= 200 < 2 ^ 32 /\
  lj_str_hash_orig bytes_200 200 = lj_str_hash_orig bytes_200_flip_150 200.
Proof.
  assert (HL : 4 <= 200 < 2 ^ 32) by lia.
  split; [exact HL|].
  apply (lj_str_hash_orig_windows bytes_200 bytes_200_flip_150 200 HL);
    intros k Hk; apply bytes_200_flip_150_elsewhere;
    Z.div_mod_to_equations; lia.
Defined.

Lemma lj_str_hash_128_above_unread_witness :
  (8 <= 8)%nat /\ table_bounded random_pos_5 /\ 128 <= 200 < 2 ^ 32 /\
  9 * (200 / 16) + 7 < 200 - 8 /\
  exists h t,
    lj_str_hash_128_above (crc := crc32c_hw) 8 random_pos_5 bytes_200 200
      = Some (h, t) /\
    lj_str_hash_128_above (crc := crc32c_hw) 8 random_pos_5
      bytes_200_flip_150 200 = Some (h, t).
Proof.
  assert (Hf : (8 <= 8)%nat) by lia.
  assert (HL : 128 <= 200 < 2 ^ 32) by lia.
  split; [exact Hf|]. split; [exact random_pos_5_bounded|].
  split; [exact HL|].
  apply (@lj_str_hash_128_above_unread crc32c_hw 8 random_pos_5 bytes_200
           bytes_200_flip_150 200 Hf random_pos_5_bounded HL);
    intros k Hk; apply bytes_200_flip_150_elsewhere;
    Z.div_mod_to_equations; lia.
Defined.

Lemma lj_str_hash_crc32_rows_witness :
  0 <= 200 < 2 ^ 32 /\
  (forall k j, 3 <= k <= 27 -> 0 <= j <= 1 ->
     tbl_get random_pos_5 k j = tbl_get random_pos_5_other_rows k j) /\
  lj_str_hash_crc32 (crc := crc32c_hw) 8 random_pos_5 bytes_200 200
    = lj_str_hash_crc32 (crc := crc32c_hw) 8 random_pos_5_other_rows
        bytes_200 200.
Proof.
  assert (HL : 0 <= 200 < 2 ^ 32) by lia.
  assert (Hrows : forall k j, 3 <= k <= 27 -> 0 <= j <= 1 ->
            tbl_get random_pos_5 k j = tbl_get random_pos_5_other_rows k j).
  { intros k j Hk Hj.
    apply (rows_agreeb_sound random_pos_5 random_pos_5_other_rows 3 25);
      [vm_compute; reflexivity | lia | lia]. }
  split; [exact HL|]. split; [exact Hrows|].
  exact (proj1 (@lj_str_hash_crc32_rows crc32c_hw 8 random_pos_5
                  random_pos_5_other_rows bytes_200 200 HL Hrows)).
Defined.

Lemma short_hash_hardware_independent_witness :
  1 <= 3 <= 3 /\
  call_strhashfn (crc := crc32c_hw) FN_lj_str_hash_crc32 8 statics_crc32_5
    bytes_0_15 3
  = call_strhashfn (crc := crc32c_hw) FN_lj_str_hash_orig 8 statics_crc32_5
      bytes_0_15 3.
Proof.
  assert (H : 1 <= 3 <= 3) by lia.
  split; [exact H|].
  exact (@short_hash_hardware_independent crc32c_hw 8 statics_crc32_5
           bytes_0_15 3 H).
Defined.

Lemma lj_str_hash_init_random_cells_witness :
  (32 <= 32)%nat /\ length random_pos_static = 32%nat /\
  2 <= 32767 < 2 ^ 31 /\
  exists t,
    lj_str_hash_init_random (crc := crc32c_hw) 32767 random_lcg 32 1234 5678
      random_pos_static = Some t /\
    let seed :=
      to_int (lj_crc32_u32 (crc := crc32c_hw)
                (to_int (lj_crc32_u32 (crc := crc32c_hw) 0 1234)) 5678) in
    let rml := Z.log2_up 32767 in
    forall order slot, 3 <= order <= 30 -> 0 <= slot <= 1 ->
      tbl_get t order slot =
        let r := random_lcg seed (Z.to_nat (2 * (order - 3) + slot)) in
        if order <? rml then r mod 2 ^ (order + 1)
        else (r * scale_of t (order - rml)) mod 2 ^ (order + 1).
Proof.
  assert (Hf : (32 <= 32)%nat) by lia.
  assert (Hl : length random_pos_static = 32%nat) by reflexivity.
  assert (HR : 2 <= 32767 < 2 ^ 31) by lia.
  split; [exact Hf|]. split; [exact Hl|]. split; [exact HR|].
  exact (@lj_str_hash_init_random_cells crc32c_hw 32767 random_lcg 32
           1234 5678 random_pos_static Hf Hl HR).
Defined.

Lemma short_strings_never_collide_witness :
  1 <= 2 <= 2 /\
  value (call_strhashfn (crc := crc32c_hw) FN_lj_str_hash_orig 8
           statics_crc32_5 bytes_0_15 2)
    = value (call_strhashfn (crc := crc32c_hw) FN_lj_str_hash_orig 8
               statics_crc32_5 bytes_0_15 2) /\
  (2 = 2 /\ forall k, 0 <= k < 2 -> u8 (bytes_0_15 k) = u8 (bytes_0_15 k)).
Proof.
  assert (H : 1 <= 2 <= 2) by lia.
  split; [exact H|]. split; [reflexivity|].
  exact (@short_strings_never_collide crc32c_hw FN_lj_str_hash_orig 8
           statics_crc32_5 bytes_0_15 bytes_0_15 2 2 H H eq_refl).
Defined.
